(** * vs-exprtools: expression builders and the expression pipeline

    A shallow embedding of [vsexprtools/exprop.py] and [vsexprtools/funcs.py].

    Python values are modelled as follows.
    - [int] is [Z]; [float] is the kernel's binary64 [float]; a value that may
      be either is a [number].
    - [str] is [string]: a sequence of code points below 256.
    - The members of the enums [ExprToken] and [ExprOp] are constructors; their
      text is given by [token_value] and [op_value].
    - An expression fragment (an arbitrarily nested sequence of stringifiable
      leaves) is a [frag].
    - A raised exception is the [Err] case of a [result].
    - The call into the external expression engine is returned as data
      ([EngineCall]): the layer builds text and submits it, it never
      evaluates it. *)

From Stdlib Require Import List String Ascii ZArith Bool Lia PrimFloat Reals.
From Stdlib Require Import DecimalString.
Import ListNotations.

Open Scope string_scope.
Open Scope list_scope.

(** ** Python values *)

(** A Python number: an [int] or a [float]. *)
Inductive number : Type :=
| PyInt (z : Z)
| PyFloat (f : float).

(** [n == 0] and [n == 1]: Python compares an int and a float by value. *)
Definition number_eq_0 (n : number) : bool :=
  match n with
  | PyInt z => Z.eqb z 0
  | PyFloat f => PrimFloat.eqb f 0%float
  end.

Definition number_eq_1 (n : number) : bool :=
  match n with
  | PyInt z => Z.eqb z 1
  | PyFloat f => PrimFloat.eqb f 1%float
  end.

(** Exceptions the modelled code raises. The attribution tag of a
    [CustomIndexError] is the function object passed as [func]. *)
Inductive func_tag : Type :=
| Func_rmse
| Func_mae.

Inductive error : Type :=
| ValueError (msg : string)
| CustomIndexError (msg : string) (func : func_tag)
| IndexError
| AssertionError
| TypeError
| ZeroDivisionError
| KeyError (key : string).

Inductive result (A : Type) : Type :=
| Ok (a : A)
| Err (e : error).

Arguments Ok {A} a.
Arguments Err {A} e.

Definition bind {A B : Type} (r : result A) (k : A -> result B) : result B :=
  match r with
  | Ok a => k a
  | Err e => Err e
  end.

Notation "x <- r ;; k" := (bind r (fun x => k))
  (at level 61, r at next level, right associativity).

(** ** exprop.py: the token and operator vocabulary *)

Inductive ExprToken : Type :=
| LumaMin | ChromaMin | Lumamax | Chromamax
| RangeHalf | RangeSize
| RangeMin | LumaRangeMin | ChromaRangeMin
| RangeMax | LumaRangeMax | ChromaRangeMax
| RangeInMin | LumaRangeInMin | ChromaRangeInMin
| RangeInMax | LumaRangeInMax | ChromaRangeInMax.

Definition token_value (t : ExprToken) : string :=
  match t with
  | LumaMin => "ymin"
  | ChromaMin => "cmin"
  | Lumamax => "ymax"
  | Chromamax => "cmax"
  | RangeHalf => "range_half"
  | RangeSize => "range_size"
  | RangeMin => "range_min"
  | LumaRangeMin => "yrange_min"
  | ChromaRangeMin => "crange_min"
  | RangeMax => "range_max"
  | LumaRangeMax => "yrange_max"
  | ChromaRangeMax => "crange_max"
  | RangeInMin => "range_in_min"
  | LumaRangeInMin => "yrange_in_min"
  | ChromaRangeInMin => "crange_in_min"
  | RangeInMax => "range_in_max"
  | LumaRangeInMax => "yrange_in_max"
  | ChromaRangeInMax => "crange_in_max"
  end.

Inductive ExprOp : Type :=
(* 1 argument *)
| EXP | LOG | SQRT | SIN | COS | ABS | NOT | DUP | DUPN | TRUNC | ROUND | FLOOR
(* 2 arguments *)
| MAX | MIN | ADD | SUB | MUL | DIV | POW | GT | LT | EQ | GTE | LTE
| AND | OR | XOR | SWAP | SWAPN | MOD
(* 3 arguments *)
| TERN | CLAMP
(* special operators *)
| REL_PIX | ABS_PIX.

Definition op_value (o : ExprOp) : string :=
  match o with
  | EXP => "exp" | LOG => "log" | SQRT => "sqrt" | SIN => "sin" | COS => "cos"
  | ABS => "abs" | NOT => "not" | DUP => "dup" | DUPN => "dupN"
  | TRUNC => "trunc" | ROUND => "round" | FLOOR => "floor"
  | MAX => "max" | MIN => "min" | ADD => "+" | SUB => "-" | MUL => "*"
  | DIV => "/" | POW => "pow" | GT => ">" | LT => "<" | EQ => "="
  | GTE => ">=" | LTE => "<=" | AND => "and" | OR => "or" | XOR => "xor"
  | SWAP => "swap" | SWAPN => "swapN" | MOD => "%"
  | TERN => "?" | CLAMP => "clamp"
  | REL_PIX => "{char:s}[{x:d},{y:d}]"
  | ABS_PIX => "{x:d} {y:d} {char:s}[]"
  end.

(** A nested iterable: a leaf, or a sequence (list, tuple, generator) of
    nested iterables. *)
#[warnings="-register-all"]
Inductive nested (A : Type) : Type :=
| Leaf (a : A)
| Seq (l : list (nested A)).

Arguments Leaf {A} a.
Arguments Seq {A} l.

(** Modelled from the spec: [flatten] (the helper itself is not part of the
    reviewed sources). It recursively expands arbitrarily nested iterables into
    one flat ordered sequence, preserving order; strings, numbers, tokens and
    operators are leaves. *)
Fixpoint flatten_item {A : Type} (x : nested A) : list A :=
  match x with
  | Leaf a => [a]
  | Seq l => flat_map flatten_item l
  end.

Definition flatten {A : Type} (items : list (nested A)) : list A :=
  flat_map flatten_item items.

(** The leaves of an expression fragment: [None], a string, a number, a token
    or an operator. *)
Inductive atom : Type :=
| ANone
| AStr (s : string)
| ANum (n : number)
| ATok (t : ExprToken)
| AOp (o : ExprOp).

(** An expression fragment: a leaf or a nested sequence of fragments. *)
Definition frag : Type := nested atom.

Abbreviation FNone := (Leaf ANone).
Abbreviation FStr s := (Leaf (AStr s)).
Abbreviation FNum n := (Leaf (ANum n)).
Abbreviation FTok t := (Leaf (ATok t)).
Abbreviation FOp o := (Leaf (AOp o)).

(** [ExprList]: a list of fragments. *)
Definition ExprList : Type := list frag.

(** Modelled from the spec: [StrList.mlength] and the variadic
    [StrList.append] (the container's base class is not part of the reviewed
    sources). [mlength] is the number of binary operators that fold the
    entries, [len(self) - 1]; [append(a, b, ...)] appends each argument. *)
Definition mlength (l : ExprList) : Z := Z.of_nat (List.length l) - 1.

Definition append (l : ExprList) (objs : list frag) : ExprList := l ++ objs.

(** [ExprOp.__mul__]: [[self] * n]; a count below 1 gives the empty list. *)
Definition op_mul (o : ExprOp) (n : Z) : list frag :=
  repeat (FOp o) (Z.to_nat n).

(** *** [ExprOp.__call__]: filling the placeholders of an operator *)

(** A positional or keyword argument of a call: a string or an integer. *)
Inductive arg : Type :=
| ArgStr (s : string)
| ArgInt (z : Z).

Inductive conversion : Type :=
| ConvS
| ConvD.

(** A format string, split into literal text and replacement fields
    [{name:conversion}]. *)
Inductive piece : Type :=
| Lit (s : string)
| Field (name : string) (c : conversion).

Definition template (o : ExprOp) : list piece :=
  match o with
  | REL_PIX =>
      [Field "char" ConvS; Lit "["; Field "x" ConvD; Lit ",";
       Field "y" ConvD; Lit "]"]
  | ABS_PIX =>
      [Field "x" ConvD; Lit " "; Field "y" ConvD; Lit " ";
       Field "char" ConvS; Lit "[]"]
  | _ => [Lit (op_value o)]
  end.

(** The text of a template, as written in the source. *)
Definition piece_text (p : piece) : string :=
  match p with
  | Lit s => s
  | Field name ConvS => ("{" ++ name ++ ":s}")%string
  | Field name ConvD => ("{" ++ name ++ ":d}")%string
  end.

Definition template_text (t : list piece) : string :=
  fold_right (fun p acc => (piece_text p ++ acc)%string) "" t.

(** Decimal text of an integer, as [str(int)] and the [d] conversion print
    it. *)
Definition dec (z : Z) : string := NilZero.string_of_int (Z.to_int z).

Definition format_field (c : conversion) (a : arg) : result string :=
  match c, a with
  | ConvS, ArgStr s => Ok s
  | ConvD, ArgInt z => Ok (dec z)
  | _, _ => Err (ValueError "Unknown format code")
  end.

Fixpoint lookup (kwargs : list (string * arg)) (key : string) : option arg :=
  match kwargs with
  | [] => None
  | (k, v) :: rest => if String.eqb k key then Some v else lookup rest key
  end.

(** [str.format] with keyword arguments on a template with named fields: fields are
    resolved left to right and the first missing name raises [KeyError]. *)
Fixpoint str_format (t : list piece) (kwargs : list (string * arg)) : result string :=
  match t with
  | [] => Ok ""
  | Lit s :: rest =>
      tail <- str_format rest kwargs ;;
      Ok (s ++ tail)%string
  | Field name c :: rest =>
      match lookup kwargs name with
      | None => Err (KeyError name)
      | Some a =>
          head <- format_field c a ;;
          tail <- str_format rest kwargs ;;
          Ok (head ++ tail)%string
      end
  end.

(** [ExprOp.__call__]: format; on a [KeyError] bind the missing name to the
    next positional argument and retry; re-raise when none is left. *)
Fixpoint call_loop (t : list piece) (args : list arg)
    (kwargs : list (string * arg)) : result string :=
  match str_format t kwargs with
  | Err (KeyError key) =>
      match args with
      | a :: rest => call_loop t rest ((key, a) :: kwargs)
      | [] => Err (KeyError key)
      end
  | r => r
  end.

Definition call (o : ExprOp) (pos_args : list arg)
    (kwargs : list (string * arg)) : result string :=
  call_loop (template o) pos_args kwargs.

(** *** [ExprOp.clamp] *)

(** [aka_expr_available] is the process-wide availability flag of the
    extended engine. *)
Definition clamp (aka_expr_available : bool) (min max c : frag) : ExprList :=
  if aka_expr_available
  then [c; min; max; FOp CLAMP]
  else [c; min; FOp MAX; max; FOp MAX].

(** *** [ExprOp.matrix] *)

(** Modelled from the spec: the connectivity mode [ConvMode] (declared by the
    host library): square neighbourhood, vertical line or horizontal line. *)
Inductive ConvMode : Type :=
| SQUARE
| VERTICAL
| HORIZONTAL.

Definition is_square (mode : ConvMode) : bool :=
  match mode with
  | SQUARE => true
  | _ => false
  end.

(** [range(a, b)]. *)
Definition range (a b : Z) : list Z :=
  map (fun i => (a + Z.of_nat i)%Z) (seq 0 (Z.to_nat (b - a))).

Definition coordinates (radius : Z) (mode : ConvMode) : list (Z * Z) :=
  match mode with
  | SQUARE =>
      flat_map
        (fun y => map (fun x => (x, y)) (range (- radius) (radius + 1)))
        (range (- radius) (radius + 1))
  | HORIZONTAL => map (fun xy => (xy, 0%Z)) (range (- radius) (radius + 1))
  | VERTICAL => map (fun xy => (0%Z, xy)) (range (- radius) (radius + 1))
  end.

Definition coord_eqb (c d : Z * Z) : bool :=
  Z.eqb (fst c) (fst d) && Z.eqb (snd c) (snd d).

(** [c in exclude]. *)
Definition coord_in (c : Z * Z) (exclude : list (Z * Z)) : bool :=
  existsb (coord_eqb c) exclude.

(** One entry of the matrix: [var if x == y == 0 else REL_PIX(var, x, y)]. *)
Definition matrix_entry (var : string) (c : Z * Z) : result frag :=
  let (x, y) := c in
  if Z.eqb x y && Z.eqb y 0
  then Ok (FStr var)
  else
    s <- call REL_PIX [ArgStr var; ArgInt x; ArgInt y] [] ;;
    Ok (FStr s).

Fixpoint map_result {A B : Type} (f : A -> result B) (l : list A)
    : result (list B) :=
  match l with
  | [] => Ok []
  | a :: rest =>
      b <- f a ;;
      bs <- map_result f rest ;;
      Ok (b :: bs)
  end.

Definition matrix (var : string) (radius : Z) (mode : ConvMode)
    (exclude : list (Z * Z)) : result ExprList :=
  map_result (matrix_entry var)
    (filter (fun c => negb (coord_in c exclude)) (coordinates radius mode)).

(** The relative-pixel reference [v[dx,dy]]. *)
Definition rel_pix (v : string) (dx dy : Z) : string :=
  (v ++ "[" ++ dec dx ++ "," ++ dec dy ++ "]")%string.

(** The entry the matrix holds for a coordinate: the bare variable at the
    centre, the relative-pixel reference elsewhere. *)
Definition pixel (v : string) (c : Z * Z) : frag :=
  if Z.eqb (fst c) 0 && Z.eqb (snd c) 0
  then FStr v
  else FStr (rel_pix v (fst c) (snd c)).

(** The square neighbourhood of radius [r] in row-major order, by index:
    entry [k] is column [k mod (2r+1)], row [k / (2r+1)], both shifted to
    start at [-r]. *)
Definition grid (r : Z) : list (Z * Z) :=
  map (fun k => (k mod (2 * r + 1) - r, k / (2 * r + 1) - r)%Z)
    (range 0 ((2 * r + 1) * (2 * r + 1))).

(** *** [ExprOp.convolution] *)

(** The [divisor] argument: a [bool] or a number. *)
Inductive divisor_arg : Type :=
| DivBool (b : bool)
| DivNum (n : number).

Definition msg_odd : string :=
  "ExprOp.convolution: convolution length must be odd!".
Definition msg_three : string :=
  "ExprOp.convolution: you must pass at least 3 convolution items!".
Definition msg_square : string :=
  "ExprOp.convolution: with square mode, convolution must represent a square (radius*radius n items)!".

(** One term of the sum:
    [rel_pix if weight == 1 else [rel_pix, weight, ExprOp.MUL]]. *)
Definition conv_term (pw : frag * float) : frag :=
  let (rel_pix, weight) := pw in
  if PrimFloat.eqb weight 1%float
  then rel_pix
  else Seq [rel_pix; FNum (PyFloat weight); FOp MUL].

(** [weight != 0]. *)
Definition weight_nonzero (pw : frag * float) : bool :=
  negb (PrimFloat.eqb (snd pw) 0%float).

(** [divisor not in {0, 1}]. *)
Definition not_in_0_1 (d : number) : bool :=
  negb (number_eq_0 d || number_eq_1 d).

Section Convolution.

(** The built-in [sum] over floats: which rounding it applies to the
    partial sums is the interpreter's choice, so it is a parameter. *)
Variable py_sum : list float -> float.

(** Availability of the extended engine. *)
Variable aka_expr_available : bool.

(** [ExprOp.convolution]. The weights are the elements of
    [list[float](flatten(matrix))]: floats, as the source annotates them (an
    int weight passes every test of the builder as the float of the same
    value does). *)
Definition convolution (var : string) (matrix_ : list (nested float))
    (bias : option number) (divisor : divisor_arg) (saturate : bool)
    (mode : ConvMode) (premultiply multiply : option number)
    (clamp_ : bool) : result ExprList :=
  let convolution := flatten matrix_ in
  let conv_len := Z.of_nat (List.length convolution) in
  if Z.eqb (conv_len mod 2) 0 then Err (ValueError msg_odd)
  else if Z.ltb conv_len 3 then Err (ValueError msg_three)
  else if is_square mode && negb (Z.eqb conv_len (Z.sqrt conv_len ^ 2))
  then Err (ValueError msg_square)
  else
    let radius :=
      if negb (is_square mode)
      then (conv_len / 2)%Z
      else (Z.sqrt conv_len / 2)%Z in
    rel_pixels <- matrix var radius mode [] ;;
    let output :=
      map conv_term
        (filter weight_nonzero (List.combine rel_pixels convolution)) in
    let output := output ++ op_mul ADD (mlength output) in
    let output :=
      match premultiply with
      | Some p => append output [FNum p; FOp MUL]
      | None => output
      end in
    let output :=
      match divisor with
      | DivBool false => output
      | _ =>
          let divisor :=
            match divisor with
            | DivBool _ => PyFloat (py_sum convolution)
            | DivNum d => d
            end in
          if not_in_0_1 divisor
          then append output [FNum divisor; FOp DIV]
          else output
      end in
    let output :=
      match bias with
      | Some b => append output [FNum b; FOp ADD]
      | None => output
      end in
    let output := if negb saturate then append output [FOp ABS] else output in
    let output :=
      match multiply with
      | Some m => append output [FNum m; FOp MUL]
      | None => output
      end in
    let output :=
      if clamp_
      then append output
             [Seq (clamp aka_expr_available (FTok RangeMin) (FTok RangeMax) (FStr ""))]
      else output in
    Ok output.

End Convolution.

(** The radius the builder derives from the number of weights. *)
Definition conv_radius (mode : ConvMode) (n : Z) : Z :=
  if is_square mode then (Z.sqrt n / 2)%Z else (n / 2)%Z.

Definition perfect_square (n : Z) : Prop := exists k : Z, n = (k * k)%Z.

(** The terms of the weighted sum, as the specification words them: pair
    pixel references and weights in order, leave out a pair whose weight is
    0, keep the bare reference for weight 1 and the product otherwise. *)
Fixpoint weighted_terms (pixels : list frag) (weights : list float)
    : list frag :=
  match pixels, weights with
  | p :: ps, w :: ws =>
      if PrimFloat.eqb w 0%float then weighted_terms ps ws
      else (if PrimFloat.eqb w 1%float then p
            else Seq [p; FNum (PyFloat w); FOp MUL]) :: weighted_terms ps ws
  | _, _ => []
  end.

(** An optional scalar step [[value, op]]. *)
Definition scalar_step (value : option number) (o : ExprOp) : list frag :=
  match value with
  | Some x => [FNum x; FOp o]
  | None => []
  end.

(** The divisor as the specification resolves it: none for [False], the
    float sum of all weights for [True], the number itself otherwise. *)
Definition resolved_divisor (py_sum : list float -> float)
    (divisor : divisor_arg) (weights : list float) : option number :=
  match divisor with
  | DivBool false => None
  | DivBool true => Some (PyFloat (py_sum weights))
  | DivNum d => Some d
  end.

(** The division step: [[divisor, DIV]] unless the divisor is 0 or 1. *)
Definition division_step (d : option number) : list frag :=
  match d with
  | Some d =>
      if number_eq_0 d || number_eq_1 d then []
      else [FNum d; FOp DIV]
  | None => []
  end.

(** Summation from the left, starting at 0: one instance of [sum]. *)
Definition left_sum (l : list float) : float :=
  fold_left PrimFloat.add l 0%float.

(** *** Plane-variable ranges *)

(** Modelled from the spec: the variable catalog [EXPR_VARS] (its module is
    not part of the reviewed sources): a fixed ordered catalog of
    single-character names led by x, y, z, then the remaining letters in
    order. *)
Definition EXPR_VARS : list string :=
  ["x"; "y"; "z"; "a"; "b"; "c"; "d"; "e"; "f"; "g"; "h"; "i"; "j"; "k";
   "l"; "m"; "n"; "o"; "p"; "q"; "r"; "s"; "t"; "u"; "v"; "w"].

(** Modelled from the spec: an [ExprVars] value (same missing module): a
    contiguous slice of the catalog given by a start and a stop index,
    constructible from a single count or a start/stop pair; it has a length
    and iterates over the names of the slice. *)
Record ExprVarsT : Type := mkExprVars { start : nat; stop : nat }.

Inductive ExprVarRangeT : Type :=
| RangeCount (n : nat)
| RangeVars (v : ExprVarsT).

Definition ExprVars (r : ExprVarRangeT) : ExprVarsT :=
  match r with
  | RangeCount n => mkExprVars 0 n
  | RangeVars v => v
  end.

Definition vars_len (v : ExprVarsT) : nat := stop v - start v.

Definition vars_iter (v : ExprVarsT) : list string :=
  firstn (stop v - start v) (skipn (start v) EXPR_VARS).

Definition msg_planes : string :=
  "Both clips must have an equal amount of planes!".

(** [ExprOp._parse_planes]. *)
Definition _parse_planes (planesa : ExprVarRangeT)
    (planesb : option ExprVarRangeT) (func : func_tag)
    : result (ExprVarsT * ExprVarsT) :=
  let planesa := ExprVars planesa in
  let planesb :=
    match planesb with
    | None => mkExprVars (stop planesa) (stop planesa + vars_len planesa)
    | Some b => ExprVars b
    end in
  if negb (Nat.eqb (vars_len planesa) (vars_len planesb))
  then Err (CustomIndexError msg_planes func)
  else Ok (planesa, planesb).

Definition rmse_pair (ab : string * string) : frag :=
  let (a, b) := ab in
  Seq [FStr a; FStr b; FOp SUB; FOp DUP; FOp MUL; FOp SQRT].

Definition mae_pair (ab : string * string) : frag :=
  let (a, b) := ab in
  Seq [FStr a; FStr b; FOp SUB; FOp ABS].

(** [ExprOp.rmse]: the loop appends one fragment per pair, then the fold. *)
Definition rmse (planesa : ExprVarRangeT) (planesb : option ExprVarRangeT)
    : result ExprList :=
  p <- _parse_planes planesa planesb Func_rmse ;;
  let (planesa, planesb) := p in
  let expr :=
    fold_left (fun expr ab => append expr [rmse_pair ab])
      (List.combine (vars_iter planesa) (vars_iter planesb)) [] in
  Ok (append expr [Seq (op_mul MAX (mlength expr))]).

(** [ExprOp.mae]: it hands [cls.rmse] to [_parse_planes]. *)
Definition mae (planesa : ExprVarRangeT) (planesb : option ExprVarRangeT)
    : result ExprList :=
  p <- _parse_planes planesa planesb Func_rmse ;;
  let (planesa, planesb) := p in
  let expr :=
    fold_left (fun expr ab => append expr [mae_pair ab])
      (List.combine (vars_iter planesa) (vars_iter planesb)) [] in
  Ok (append expr [Seq (op_mul MAX (mlength expr))]).

(** *** Clips and [ExprToken.get_value] *)

(** Modelled from the spec: what the layer reads from a clip of the host
    environment: its pixel format descriptor (absent for a clip of variable
    format), with sample type, bit depth and plane count, and its declared
    colour range. *)
Inductive SampleType : Type :=
| INTEGER
| FLOAT.

Inductive ColorRange : Type :=
| LIMITED
| FULL.

Record VideoFormat : Type := mkVideoFormat {
  sample_type : SampleType;
  bits_per_sample : Z;
  num_planes : nat
}.

Record VideoNode : Type := mkVideoNode {
  format : option VideoFormat;
  color_range : ColorRange
}.

(** [val <= 1.0]. *)
Definition number_le_one (n : number) : bool :=
  match n with
  | PyInt z => Z.leb z 1
  | PyFloat f => PrimFloat.leb f 1%float
  end.

(** [val + (1 - b)] for a [bool] [b]. *)
Definition number_add_one_minus (val : number) (b : bool) : number :=
  match val with
  | PyInt z => PyInt (z + (1 - (if b then 1 else 0)))
  | PyFloat f =>
      PyFloat (PrimFloat.add f (if b then 0%float else 1%float))
  end.

Section GetValue.

(** The numeric levels of the host environment, by format, chroma flag and
    range: they are the host's tables, so they are parameters. *)
Variable lowest_level : VideoFormat -> bool -> ColorRange -> number.
Variable peak_level : VideoFormat -> bool -> ColorRange -> number.
Variable neutral_level : VideoFormat -> bool -> number.

(** Modelled from the spec: the three resolution primitives of the host
    environment, lowest value for this clip given chroma flag and range,
    peak value likewise, and neutral value given the chroma flag. A range
    that is passed is the one used; when none is passed the value is
    resolved against the clip's own declared range. *)
Definition get_lowest_value (clip : VideoNode) (chroma : bool)
    (range_in : option ColorRange) : result number :=
  match format clip with
  | None => Err AssertionError
  | Some fmt =>
      Ok (lowest_level fmt chroma
            (match range_in with Some r => r | None => color_range clip end))
  end.

Definition get_peak_value (clip : VideoNode) (chroma : bool)
    (range_in : option ColorRange) : result number :=
  match format clip with
  | None => Err AssertionError
  | Some fmt =>
      Ok (peak_level fmt chroma
            (match range_in with Some r => r | None => color_range clip end))
  end.

Definition get_neutral_value (clip : VideoNode) (chroma : bool)
    : result number :=
  match format clip with
  | None => Err AssertionError
  | Some fmt => Ok (neutral_level fmt chroma)
  end.

(** [ExprToken.get_value]. *)
Definition get_value (self : ExprToken) (clip : VideoNode) (chroma : bool)
    (range_in : ColorRange) : result number :=
  match self with
  | LumaMin => get_lowest_value clip false (Some LIMITED)
  | ChromaMin => get_lowest_value clip true (Some LIMITED)
  | Lumamax => get_peak_value clip false (Some LIMITED)
  | Chromamax => get_peak_value clip true (Some LIMITED)
  | RangeHalf => get_neutral_value clip chroma
  | RangeSize =>
      val <- get_peak_value clip false None ;;
      Ok (number_add_one_minus val (number_le_one val))
  | RangeMin => get_lowest_value clip chroma None
  | LumaRangeMin => get_lowest_value clip false None
  | ChromaRangeMin => get_lowest_value clip true None
  | RangeMax => get_peak_value clip chroma None
  | LumaRangeMax => get_peak_value clip false None
  | ChromaRangeMax => get_peak_value clip true None
  | RangeInMin => get_lowest_value clip chroma (Some range_in)
  | LumaRangeInMin => get_lowest_value clip false (Some range_in)
  | ChromaRangeInMin => get_lowest_value clip true (Some range_in)
  | RangeInMax => get_peak_value clip chroma (Some range_in)
  | LumaRangeInMax => get_peak_value clip false (Some range_in)
  | ChromaRangeInMax => get_peak_value clip true (Some range_in)
  end.

End GetValue.

(** Modelled from the spec: one instance of the host's level tables (the host
    library is not part of the reviewed sources). The specification quotes
    its 8-bit values, 16 and 235 for the limited range and the peak 255, and
    the peak 1.0 of float formats; the other entries are the usual studio
    levels, scaled to the bit depth. *)
Definition std_lowest (fmt : VideoFormat) (chroma : bool) (r : ColorRange)
    : number :=
  match sample_type fmt, r with
  | FLOAT, _ => PyFloat (if chroma then (-0.5)%float else 0%float)
  | INTEGER, LIMITED => PyInt (Z.shiftl 16 (bits_per_sample fmt - 8))
  | INTEGER, FULL => PyInt 0
  end.

Definition std_peak (fmt : VideoFormat) (chroma : bool) (r : ColorRange)
    : number :=
  match sample_type fmt, r with
  | FLOAT, _ => PyFloat (if chroma then 0.5%float else 1%float)
  | INTEGER, LIMITED =>
      PyInt (Z.shiftl (if chroma then 240 else 235) (bits_per_sample fmt - 8))
  | INTEGER, FULL => PyInt (Z.shiftl 1 (bits_per_sample fmt) - 1)
  end.

Definition std_neutral (fmt : VideoFormat) (chroma : bool) : number :=
  match sample_type fmt with
  | FLOAT => PyFloat (if chroma then 0%float else 0.5%float)
  | INTEGER => PyInt (Z.shiftl 1 (bits_per_sample fmt - 1))
  end.

(** ** funcs.py: the expression pipeline *)

(** The keyword options forwarded to the engine call, with their defaults
    when left out. *)
Record ExprKwargs : Type := mkKwargs {
  kw_format : option Z;
  kw_opt : bool;
  kw_boundary : bool
}.

Definition no_kwargs : ExprKwargs := mkKwargs None false false.

(** The call into the external engine, as data. *)
Inductive EngineCall : Type :=
| AkarinExpr (clips : list VideoNode) (expr : list string)
    (format_ : option Z) (opt boundary : bool)
| StdExpr (clips : list VideoNode) (expr : list string) (format_ : option Z).

(** The per-plane expression texts handed to the engine. *)
Definition call_expr (c : EngineCall) : list string :=
  match c with
  | AkarinExpr _ e _ _ _ => e
  | StdExpr _ e _ => e
  end.

(** The plane selector: absent, one index, or several. *)
Inductive planes_arg : Type :=
| PlanesNone
| PlanesOne (p : Z)
| PlanesMany (ps : list Z).

(** The per-clip prefix or suffix: absent, a string, a tuple, another
    sequence, or a number. *)
Inductive ffix_arg : Type :=
| FfixNone
| FfixStr (s : string)
| FfixTuple (t : list frag)
| FfixList (l : list frag)
| FfixNum (n : number).

(** [x in l] on integers. *)
Definition Z_in (x : Z) (l : list Z) : bool := existsb (Z.eqb x) l.

(** Modelled from the spec: [normalise_planes] (not part of the reviewed
    sources) resolves an absent, scalar or collection selector against the
    clip's plane count into an ordered, duplicate-free set of valid indices,
    all planes when absent. *)
Definition normalise_planes (n_planes : nat) (planes : planes_arg) : list Z :=
  match planes with
  | PlanesNone => range 0 (Z.of_nat n_planes)
  | PlanesOne p => filter (Z.eqb p) (range 0 (Z.of_nat n_planes))
  | PlanesMany ps => filter (fun i => Z_in i ps) (range 0 (Z.of_nat n_planes))
  end.

(** Modelled from the spec: [to_arr] (not part of the reviewed sources)
    turns a bare scalar into a single-element sequence and leaves a sequence
    unchanged. *)
Definition to_arr {A : Type} (x : nested A) : list (nested A) :=
  match x with
  | Leaf a => [Leaf a]
  | Seq l => l
  end.

(** Whitespace, as [str.strip] sees a code point below 256. *)
Definition is_space (c : ascii) : bool :=
  let n := nat_of_ascii c in
  (Nat.leb 9 n && Nat.leb n 13) || (Nat.leb 28 n && Nat.leb n 32)
  || Nat.eqb n 133 || Nat.eqb n 160.

Fixpoint lstrip (s : string) : string :=
  match s with
  | EmptyString => EmptyString
  | String c rest => if is_space c then lstrip rest else s
  end.

Fixpoint rstrip (s : string) : string :=
  match s with
  | EmptyString => EmptyString
  | String c rest =>
      match rstrip rest with
      | EmptyString => if is_space c then EmptyString else String c EmptyString
      | rest' => String c rest'
      end
  end.

(** [s.strip()]. *)
Definition strip (s : string) : string := rstrip (lstrip s).

(** [x is not None and x != '']. *)
Definition kept (x : atom) : bool :=
  match x with
  | ANone => false
  | AStr EmptyString => false
  | _ => true
  end.

Fixpoint zip3 {A B C : Type} (la : list A) (lb : list B) (lc : list C)
    : list (A * B * C) :=
  match la, lb, lc with
  | a :: la', b :: lb', c :: lc' => (a, b, c) :: zip3 la' lb' lc'
  | _, _, _ => []
  end.

(** [ceil(n / d)] for a positive [d] (the quotient is exact at the sizes of
    a clip list). *)
Definition ceil_div (n d : nat) : nat := (n + d - 1) / d.

(** [l * k]. *)
Definition list_mul {A : Type} (l : list A) (k : nat) : list A :=
  List.concat (repeat l k).

Section Funcs.

(** [str(f)] of a float: the interpreter's shortest round-trip text. *)
Variable repr_float : float -> string.

(** Availability of the extended engine. *)
Variable aka_expr_available : bool.

(** [str(x)] of a leaf. An operator prints its value ([ExprOp.__str__]).
    Modelled from the spec: a token prints its code, the literal that is
    substituted into the expression text (the enum base class is not part
    of the reviewed sources). *)
Definition str (x : atom) : string :=
  match x with
  | ANone => "None"
  | AStr s => s
  | ANum (PyInt z) => dec z
  | ANum (PyFloat f) => repr_float f
  | ATok t => token_value t
  | AOp o => op_value o
  end.

(** [expr_func]. *)
Definition expr_func (clips : list VideoNode) (expr : list string)
    (kw : ExprKwargs) : EngineCall :=
  if aka_expr_available
  then AkarinExpr clips expr (kw_format kw) (kw_opt kw) (kw_boundary kw)
  else StdExpr clips expr (kw_format kw).

(** [_combine_norm__ix]. *)
Definition _combine_norm__ix (ffix : ffix_arg) (n_clips : nat)
    : result (list frag) :=
  match ffix with
  | FfixNone => Ok (repeat (FStr "") n_clips)
  | FfixNum _ => Err TypeError
  | _ =>
      let ffix :=
        match ffix with
        | FfixStr s => [FStr s]
        | FfixTuple t => [Seq t]
        | FfixList l => l
        | _ => []
        end in
      if Nat.eqb (List.length ffix) 0 then Err ZeroDivisionError
      else Ok (list_mul ffix (Nat.max 1 (ceil_div n_clips (List.length ffix))))
  end.

(** The expression text [expr] assembles. *)
Definition expr_string (expr : list frag) : string :=
  let expr_array := flatten expr in
  let expr_array_filtered := filter kept expr_array in
  String.concat " " (map (fun x => strip (str x)) expr_array_filtered).

(** [expr]. *)
Definition expr (clips : list VideoNode) (expr : list frag)
    (planes : planes_arg) (expr_kwargs : ExprKwargs) : result EngineCall :=
  match clips with
  | [] => Err IndexError
  | firstclip :: _ =>
      match format firstclip with
      | None => Err AssertionError
      | Some fmt =>
          let n_planes := num_planes fmt in
          let expr_string := expr_string expr in
          let planesl := normalise_planes n_planes planes in
          Ok (expr_func clips
                (map (fun x => if Z_in x planesl then expr_string else "")
                   (range 0 (Z.of_nat n_planes)))
                expr_kwargs)
      end
  end.

(** The per-clip entries of [combine]: the zip of [normalized_args]. *)
Definition combine_args (n_clips : nat) (prefix suffix : ffix_arg)
    : result (list (frag * string * frag)) :=
  prefixes <- _combine_norm__ix prefix n_clips ;;
  suffixes <- _combine_norm__ix suffix n_clips ;;
  Ok (zip3 (firstn (n_clips + 1) (to_arr (Seq prefixes)))
        (firstn (n_clips + 1) EXPR_VARS)
        (firstn (n_clips + 1) (to_arr (Seq suffixes)))).

(** [combine]. *)
Definition combine (clips : list VideoNode) (operator : ExprOp)
    (suffix prefix : ffix_arg) (expr_suffix expr_prefix : frag)
    (planes : planes_arg) (expr_kwargs : ExprKwargs) : result EngineCall :=
  let n_clips := List.length clips in
  args <- combine_args n_clips prefix suffix ;;
  let args :=
    Seq (map (fun e : frag * string * frag =>
                let '(p, v, s) := e in Seq [p; FStr v; s]) args) in
  let operators := Seq (op_mul operator (Z.of_nat n_clips - 1)) in
  expr clips [expr_prefix; args; operators; expr_suffix] planes expr_kwargs.

End Funcs.

(** Whether plane [i] is selected, in the words of the specification: every
    plane when the selector is absent, the plane itself for a single index,
    membership for a set of indices. *)
Definition plane_selected (planes : planes_arg) (i : nat) : bool :=
  match planes with
  | PlanesNone => true
  | PlanesOne p => Z.eqb (Z.of_nat i) p
  | PlanesMany ps => Z_in (Z.of_nat i) ps
  end.

(** Clips for closed examples: 8-bit integer samples, limited range, one
    plane and three planes. *)
Definition gray8 : VideoNode :=
  mkVideoNode (Some (mkVideoFormat INTEGER 8 1)) LIMITED.

Definition yuv8 : VideoNode :=
  mkVideoNode (Some (mkVideoFormat INTEGER 8 3)) LIMITED.

(** A float printer for closed examples in which no float occurs. *)
Definition repr_unused (f : float) : string := "<float>".

(** *** Postfix evaluation *)

(** Modelled from the spec: the engine evaluates a postfix token sequence
    with an implicit stack (it is an external component). The machine below
    runs it over exact real numbers: a name pushes the sample bound to it, an
    integer literal pushes itself, an operator replaces its operands by its
    result. Tokens outside the arithmetic fragment stop the machine. *)
Definition eval_atom (env : string -> R) (a : atom) (st : list R)
    : option (list R) :=
  match a, st with
  | AStr v, _ => Some (env v :: st)
  | ANum (PyInt z), _ => Some (IZR z :: st)
  | AOp ADD, y :: x :: r => Some ((x + y)%R :: r)
  | AOp SUB, y :: x :: r => Some ((x - y)%R :: r)
  | AOp MUL, y :: x :: r => Some ((x * y)%R :: r)
  | AOp MAX, y :: x :: r => Some (Rmax x y :: r)
  | AOp MIN, y :: x :: r => Some (Rmin x y :: r)
  | AOp ABS, x :: r => Some (Rabs x :: r)
  | AOp SQRT, x :: r => Some (sqrt x :: r)
  | AOp DUP, x :: r => Some (x :: x :: r)
  | AOp SWAP, y :: x :: r => Some (x :: y :: r)
  | _, _ => None
  end.

Fixpoint eval (env : string -> R) (prog : list atom) (st : list R)
    : option (list R) :=
  match prog with
  | [] => Some st
  | a :: rest =>
      match eval_atom env a st with
      | Some st' => eval env rest st'
      | None => None
      end
  end.

(** What [k] successive [max] steps leave of a stack. *)
Fixpoint max_fold (k : nat) (st : list R) : list R :=
  match k, st with
  | S k', y :: x :: r => max_fold k' (Rmax x y :: r)
  | _, _ => st
  end.

(** The absolute differences of the sample pairs, last pair on top. *)
Definition abs_diffs (env : string -> R) (pairs : list (string * string))
    : list R :=
  rev (map (fun ab => Rabs (env (fst ab) - env (snd ab))) pairs).

(** *** [ExprToken.is_chroma] *)

(** The member names of [ExprToken]. *)
Definition token_name (t : ExprToken) : string :=
  match t with
  | LumaMin => "LumaMin"
  | ChromaMin => "ChromaMin"
  | Lumamax => "Lumamax"
  | Chromamax => "Chromamax"
  | RangeHalf => "RangeHalf"
  | RangeSize => "RangeSize"
  | RangeMin => "RangeMin"
  | LumaRangeMin => "LumaRangeMin"
  | ChromaRangeMin => "ChromaRangeMin"
  | RangeMax => "RangeMax"
  | LumaRangeMax => "LumaRangeMax"
  | ChromaRangeMax => "ChromaRangeMax"
  | RangeInMin => "RangeInMin"
  | LumaRangeInMin => "LumaRangeInMin"
  | ChromaRangeInMin => "ChromaRangeInMin"
  | RangeInMax => "RangeInMax"
  | LumaRangeInMax => "LumaRangeInMax"
  | ChromaRangeInMax => "ChromaRangeInMax"
  end.

(** [str.lower] on code points below 256: the capital letters of ASCII and
    of Latin-1 move down by 32. *)
Definition lower_char (c : ascii) : ascii :=
  let n := nat_of_ascii c in
  if (Nat.leb 65 n && Nat.leb n 90)
     || (Nat.leb 192 n && Nat.leb n 222 && negb (Nat.eqb n 215))
  then ascii_of_nat (n + 32)
  else c.

Fixpoint lower (s : string) : string :=
  match s with
  | EmptyString => EmptyString
  | String c rest => String (lower_char c) (lower rest)
  end.

(** [sub in s] on strings. *)
Fixpoint contains (sub s : string) : bool :=
  match s with
  | EmptyString => String.prefix sub EmptyString
  | String _ rest => String.prefix sub s || contains sub rest
  end.

(** [ExprToken.is_chroma]: ['chroma' in self._name_.lower()]. *)
Definition is_chroma (self : ExprToken) : bool :=
  contains "chroma" (lower (token_name self)).

(** *** Helpers of the statements about [combine] *)

(** Whether a per-clip prefix or suffix normalizes to exactly [n] entries: a
    list does when its length divides [n], everything else always does. *)
Definition covers_exactly (ffix : ffix_arg) (n : nat) : bool :=
  match ffix with
  | FfixList l => Nat.eqb (n mod List.length l) 0
  | _ => true
  end.

(** The words of an expression: the stripped strings of the kept leaves. *)
Definition words (repr_float : float -> string) (e : list frag)
    : list string :=
  map (fun x => strip (str repr_float x)) (filter kept (flatten e)).

(** * Theorems *)

(** ** The operator call and the matrix builder *)

Lemma template_text_value (o : ExprOp) : template_text (template o) = op_value o.
Proof. destruct o; reflexivity. Qed.

Lemma call_rel_pix (v : string) (x y : Z) :
  call REL_PIX [ArgStr v; ArgInt x; ArgInt y] [] = Ok (rel_pix v x y).
Proof. reflexivity. Qed.

Lemma matrix_entry_ok (v : string) (c : Z * Z) :
  matrix_entry v c = Ok (pixel v c).
Proof.
  destruct c as [x y]. unfold matrix_entry, pixel. cbn [fst snd].
  destruct (Z.eqb_spec x y) as [->|Hxy].
  - destruct (Z.eqb_spec y 0); cbn [andb]; [reflexivity|].
    rewrite call_rel_pix. reflexivity.
  - cbn [andb]. rewrite call_rel_pix. cbn [bind].
    destruct (Z.eqb_spec x 0) as [->|]; [|reflexivity].
    destruct (Z.eqb_spec y 0) as [->|]; [congruence|reflexivity].
Qed.

Lemma map_result_ok {A B : Type} (f : A -> result B) (g : A -> B) (l : list A) :
  (forall a, f a = Ok (g a)) -> map_result f l = Ok (map g l).
Proof.
  intros H. induction l as [|a l IH]; [reflexivity|].
  cbn. rewrite H, IH. reflexivity.
Qed.

Lemma matrix_ok (v : string) (r : Z) (mode : ConvMode) (exclude : list (Z * Z)) :
  matrix v r mode exclude =
  Ok (map (pixel v)
        (filter (fun c => negb (coord_in c exclude)) (coordinates r mode))).
Proof. apply map_result_ok, matrix_entry_ok. Qed.

Lemma seq_add_map (a n : nat) : seq a n = map (Nat.add a) (seq 0 n).
Proof.
  revert a. induction n as [|n IH]; intros a; simpl; [reflexivity|].
  f_equal; [lia|].
  rewrite (IH (S a)), (IH 1%nat), map_map. apply map_ext. intros; lia.
Qed.

(** Rows of a fixed width laid end to end are indexed by quotient and
    remainder. *)
Lemma flat_map_seq_grid {A : Type} (f : nat -> nat -> A) (n m : nat) :
  (0 < n)%nat ->
  flat_map (fun y => map (fun x => f x y) (seq 0 n)) (seq 0 m) =
  map (fun k => f (k mod n) (k / n))%nat (seq 0 (m * n)).
Proof.
  intros Hn. induction m as [|m IH]; [reflexivity|].
  rewrite seq_S, flat_map_app, IH. simpl flat_map. rewrite app_nil_r.
  replace (S m * n)%nat with (m * n + n)%nat by lia.
  rewrite seq_app, map_app. f_equal. simpl.
  rewrite (seq_add_map (m * n)), map_map.
  apply map_ext_in. intros i Hi. apply in_seq in Hi.
  f_equal.
  - rewrite Nat.add_comm, Nat.Div0.mod_add. symmetry. apply Nat.mod_small; lia.
  - rewrite Nat.add_comm, Nat.div_add by lia. rewrite Nat.div_small; lia.
Qed.

Lemma range_length (a b : Z) : List.length (range a b) = Z.to_nat (b - a).
Proof. unfold range. rewrite length_map, length_seq. reflexivity. Qed.

Lemma range_nth_error (a b : Z) (i : nat) :
  (i < Z.to_nat (b - a))%nat ->
  nth_error (range a b) i = Some (a + Z.of_nat i)%Z.
Proof.
  intros Hi. unfold range. rewrite nth_error_map, nth_error_seq.
  destruct (Nat.ltb_spec i (Z.to_nat (b - a))); [reflexivity|lia].
Qed.

Lemma coordinates_square (r : Z) : (0 <= r)%Z -> coordinates r SQUARE = grid r.
Proof.
  intros Hr. unfold coordinates, grid, range.
  replace (r + 1 - - r)%Z with (2 * r + 1)%Z by lia.
  rewrite Z.sub_0_r.
  set (n := Z.to_nat (2 * r + 1)).
  assert (Hn : (0 < n)%nat) by (subst n; lia).
  assert (Hw : (2 * r + 1)%Z = Z.of_nat n) by (subst n; lia).
  rewrite Z2Nat.inj_mul by lia. fold n.
  rewrite flat_map_concat_map, map_map, <- flat_map_concat_map.
  erewrite flat_map_ext.
  2:{ intros y. rewrite map_map. reflexivity. }
  rewrite (flat_map_seq_grid (fun x y => (- r + Z.of_nat x, - r + Z.of_nat y)%Z))
    by exact Hn.
  rewrite map_map. apply map_ext. intros k. rewrite Hw.
  rewrite Nat2Z.inj_mod, Nat2Z.inj_div, Z.add_0_l. f_equal; lia.
Qed.

Lemma grid_length (r : Z) :
  (0 <= r)%Z -> List.length (grid r) = Z.to_nat ((2 * r + 1) ^ 2).
Proof.
  intros Hr. unfold grid. rewrite length_map, range_length.
  f_equal. rewrite Z.pow_2_r. lia.
Qed.

Lemma grid_nth_error (r row col : Z) :
  (0 <= r)%Z -> (0 <= row <= 2 * r)%Z -> (0 <= col <= 2 * r)%Z ->
  nth_error (grid r) (Z.to_nat (row * (2 * r + 1) + col)) =
  Some (col - r, row - r)%Z.
Proof.
  intros Hr Hrow Hcol. unfold grid.
  rewrite nth_error_map, range_nth_error by nia.
  cbn [option_map]. rewrite Z.add_0_l, Z2Nat.id by nia.
  f_equal. f_equal.
  - rewrite Z.add_comm, Z.mod_add by lia. rewrite Z.mod_small; lia.
  - rewrite Z.add_comm, Z.div_add by lia. rewrite Z.div_small; lia.
Qed.

Lemma filter_no_exclusion (l : list (Z * Z)) :
  filter (fun c => negb (coord_in c [])) l = l.
Proof.
  induction l as [|c l IH]; [reflexivity|]. cbn. f_equal. exact IH.
Qed.

(** C7: for every variable name [v] and radius [r >= 0], the matrix builder
    in square mode with no exclusions produces exactly [(2r+1)^2] entries in
    row-major order (row [y] outer, column [x] inner, each from [-r] to [r]):
    the entry of row [row] and column [col] belongs to the coordinate
    [(col - r, row - r)], it is the bare string [v] at the centre [(0,0)] and
    the relative-pixel reference [v[dx,dy]] elsewhere; with an exclusion set
    the entries of the excluded coordinates are left out and the others keep
    their order. *)
Theorem matrix_square_row_major (v : string) (r : Z) (exclude : list (Z * Z)) :
  (0 <= r)%Z ->
  matrix v r SQUARE [] = Ok (map (pixel v) (grid r)) /\
  List.length (grid r) = Z.to_nat ((2 * r + 1) ^ 2) /\
  (forall row col : Z,
     (0 <= row <= 2 * r)%Z -> (0 <= col <= 2 * r)%Z ->
     nth_error (grid r) (Z.to_nat (row * (2 * r + 1) + col)) =
     Some (col - r, row - r)%Z) /\
  pixel v (0, 0)%Z = FStr v /\
  (forall dx dy : Z,
     (dx, dy) <> (0, 0)%Z -> pixel v (dx, dy) = FStr (rel_pix v dx dy)) /\
  matrix v r SQUARE exclude =
  Ok (map (pixel v) (filter (fun c => negb (coord_in c exclude)) (grid r))).
Proof.
  intros Hr. rewrite !matrix_ok, coordinates_square by exact Hr.
  repeat split.
  - now rewrite filter_no_exclusion.
  - apply grid_length, Hr.
  - intros row col. apply grid_nth_error, Hr.
  - intros dx dy Hne. unfold pixel. cbn [fst snd].
    destruct (Z.eqb_spec dx 0) as [->|]; [|reflexivity].
    destruct (Z.eqb_spec dy 0) as [->|]; [congruence|reflexivity].
Qed.

(** The theorem at the variable [x] and radius 1: nine entries. *)
Lemma matrix_square_row_major_witness :
  (0 <= 1)%Z /\
  matrix "x" 1 SQUARE [] =
  Ok [FStr "x[-1,-1]"; FStr "x[0,-1]"; FStr "x[1,-1]";
      FStr "x[-1,0]"; FStr "x"; FStr "x[1,0]";
      FStr "x[-1,1]"; FStr "x[0,1]"; FStr "x[1,1]"].
Proof.
  split; [lia|].
  exact (eq_trans (proj1 (matrix_square_row_major "x" 1 [] ltac:(lia))) eq_refl).
Defined.

(** ** The convolution builder *)

Lemma terms_refine (ps : list frag) (ws : list float) :
  map conv_term (filter weight_nonzero (List.combine ps ws)) =
  weighted_terms ps ws.
Proof.
  revert ws. induction ps as [|p ps IH]; intros [|w ws]; try reflexivity.
  cbn [List.combine filter weighted_terms]. unfold weight_nonzero at 1.
  cbn [snd].
  destruct (PrimFloat.eqb w 0); cbn [negb]; [apply IH|].
  cbn [map conv_term]. now rewrite IH.
Qed.

Lemma odd_half (n : Z) : (n mod 2 <> 0)%Z -> (2 * (n / 2) + 1 = n)%Z.
Proof.
  intros H. pose proof (Z.div_mod n 2 ltac:(lia)).
  pose proof (Z.mod_pos_bound n 2 ltac:(lia)). lia.
Qed.

(** The root of an odd square is odd. *)
Lemma sqrt_odd (n : Z) :
  (n = Z.sqrt n ^ 2)%Z -> (n mod 2 <> 0)%Z ->
  (2 * (Z.sqrt n / 2) + 1 = Z.sqrt n)%Z.
Proof.
  intros Hsq Hodd. apply odd_half. intros Heven. apply Hodd.
  rewrite Hsq, Z.pow_2_r, Z.mul_mod, Heven by lia. reflexivity.
Qed.

Lemma sqrt_check_iff (n : Z) :
  (0 <= n)%Z -> (n = Z.sqrt n ^ 2)%Z <-> perfect_square n.
Proof.
  intros Hn. split.
  - intros H. exists (Z.sqrt n). now rewrite <- Z.pow_2_r.
  - intros [k ->]. rewrite Z.pow_2_r.
    replace (k * k)%Z with (Z.abs k * Z.abs k)%Z by lia.
    now rewrite Z.sqrt_square by lia.
Qed.

Lemma coordinates_length (r : Z) (mode : ConvMode) :
  (0 <= r)%Z ->
  List.length (coordinates r mode) =
  Z.to_nat (if is_square mode then (2 * r + 1) ^ 2 else 2 * r + 1).
Proof.
  intros Hr. destruct mode; cbn [is_square].
  - rewrite coordinates_square by exact Hr. apply grid_length, Hr.
  - unfold coordinates. rewrite length_map, range_length. f_equal. lia.
  - unfold coordinates. rewrite length_map, range_length. f_equal. lia.
Qed.

(** For a valid number of weights the neighbourhood has one pixel per
    weight. *)
Lemma valid_radius (mode : ConvMode) (n : Z) :
  (n mod 2 <> 0)%Z -> (3 <= n)%Z ->
  (is_square mode = true -> n = Z.sqrt n ^ 2)%Z ->
  (0 <= conv_radius mode n)%Z /\
  (if is_square mode then (2 * conv_radius mode n + 1) ^ 2
   else 2 * conv_radius mode n + 1)%Z = n.
Proof.
  intros Hodd Hge Hsq. unfold conv_radius. destruct (is_square mode).
  - specialize (Hsq eq_refl). pose proof (Z.sqrt_nonneg n).
    split; [apply Z.div_pos; lia|].
    rewrite sqrt_odd by assumption. symmetry; exact Hsq.
  - split; [apply Z.div_pos; lia|]. apply odd_half, Hodd.
Qed.

Lemma op_mul_mlength (o : ExprOp) (l : ExprList) :
  op_mul o (mlength l) = repeat (FOp o) (List.length l - 1).
Proof. unfold op_mul, mlength. f_equal. lia. Qed.

Lemma scalar_step_app (value : option number) (o : ExprOp) (l : ExprList) :
  match value with
  | Some x => append l [FNum x; FOp o]
  | None => l
  end = l ++ scalar_step value o.
Proof. destruct value; cbn; [reflexivity|now rewrite app_nil_r]. Qed.

Lemma division_step_app (py_sum : list float -> float)
    (divisor : divisor_arg) (ws : list float) (l : ExprList) :
  match divisor with
  | DivBool false => l
  | _ =>
      let d :=
        match divisor with
        | DivBool _ => PyFloat (py_sum ws)
        | DivNum d => d
        end in
      if not_in_0_1 d then append l [FNum d; FOp DIV] else l
  end = l ++ division_step (resolved_divisor py_sum divisor ws).
Proof.
  unfold not_in_0_1, append.
  destruct divisor as [[|]|d]; cbn [resolved_divisor division_step];
    cbv zeta;
    try match goal with
        |- context [negb ?c] => destruct c; cbn [negb]
        end;
    rewrite ?app_nil_r; reflexivity.
Qed.

Lemma convolution_even (py_sum : list float -> float) (aka : bool)
    (var : string) (m : list (nested float)) (bias : option number)
    (divisor : divisor_arg) (saturate : bool) (mode : ConvMode)
    (pre mul : option number) (cl : bool) :
  (Z.of_nat (List.length (flatten m)) mod 2 = 0)%Z ->
  convolution py_sum aka var m bias divisor saturate mode pre mul cl =
  Err (ValueError msg_odd).
Proof.
  intros H. unfold convolution. now rewrite H.
Qed.

Lemma convolution_short (py_sum : list float -> float) (aka : bool)
    (var : string) (m : list (nested float)) (bias : option number)
    (divisor : divisor_arg) (saturate : bool) (mode : ConvMode)
    (pre mul : option number) (cl : bool) :
  (Z.of_nat (List.length (flatten m)) mod 2 <> 0)%Z ->
  (Z.of_nat (List.length (flatten m)) < 3)%Z ->
  convolution py_sum aka var m bias divisor saturate mode pre mul cl =
  Err (ValueError msg_three).
Proof.
  intros Hodd H. unfold convolution.
  set (n := Z.of_nat (List.length (flatten m))) in *.
  destruct (Z.eqb_spec (n mod 2) 0) as [|_]; [contradiction|].
  destruct (Z.ltb_spec n 3); [reflexivity|lia].
Qed.

Lemma convolution_not_square (py_sum : list float -> float) (aka : bool)
    (var : string) (m : list (nested float)) (bias : option number)
    (divisor : divisor_arg) (saturate : bool) (pre mul : option number)
    (cl : bool) :
  (Z.of_nat (List.length (flatten m)) mod 2 <> 0)%Z ->
  (3 <= Z.of_nat (List.length (flatten m)))%Z ->
  ~ perfect_square (Z.of_nat (List.length (flatten m))) ->
  convolution py_sum aka var m bias divisor saturate SQUARE pre mul cl =
  Err (ValueError msg_square).
Proof.
  intros Hodd Hge Hsq. unfold convolution.
  set (n := Z.of_nat (List.length (flatten m))) in *.
  destruct (Z.eqb_spec (n mod 2) 0) as [|_]; [contradiction|].
  destruct (Z.ltb_spec n 3) as [|_]; [lia|].
  cbn [is_square andb].
  destruct (Z.eqb_spec n (Z.sqrt n ^ 2)) as [Heq|_]; [|reflexivity].
  exfalso. apply Hsq, sqrt_check_iff; [lia|exact Heq].
Qed.

(** The output for a valid number of weights, in closed form. *)
Lemma convolution_valid (py_sum : list float -> float) (aka : bool)
    (var : string) (m : list (nested float)) (bias : option number)
    (divisor : divisor_arg) (saturate : bool) (mode : ConvMode)
    (pre mul : option number) (cl : bool) :
  let ws := flatten m in
  let n := Z.of_nat (List.length ws) in
  (n mod 2 <> 0)%Z -> (3 <= n)%Z ->
  (is_square mode = true -> n = Z.sqrt n ^ 2)%Z ->
  convolution py_sum aka var m bias divisor saturate mode pre mul cl =
  Ok (let terms :=
        weighted_terms
          (map (pixel var) (coordinates (conv_radius mode n) mode)) ws in
      terms ++ repeat (FOp ADD) (List.length terms - 1)
      ++ scalar_step pre MUL
      ++ division_step (resolved_divisor py_sum divisor ws)
      ++ scalar_step bias ADD
      ++ (if saturate then [] else [FOp ABS])
      ++ scalar_step mul MUL
      ++ (if cl
          then [Seq (clamp aka (FTok RangeMin) (FTok RangeMax) (FStr ""))]
          else [])).
Proof.
  intros ws n Hodd Hge Hsq. unfold convolution. fold ws. fold n.
  destruct (Z.eqb_spec (n mod 2) 0) as [|_]; [contradiction|].
  destruct (Z.ltb_spec n 3) as [|_]; [lia|].
  assert (Hchk : is_square mode && negb (Z.eqb n (Z.sqrt n ^ 2)) = false).
  { destruct (is_square mode); [|reflexivity].
    rewrite <- (Hsq eq_refl), Z.eqb_refl. reflexivity. }
  rewrite Hchk.
  replace (if negb (is_square mode) then (n / 2)%Z else (Z.sqrt n / 2)%Z)
    with (conv_radius mode n)
    by (unfold conv_radius; now destruct (is_square mode)).
  rewrite matrix_ok. cbn [bind]. rewrite filter_no_exclusion, terms_refine.
  rewrite op_mul_mlength. cbv zeta. f_equal.
  rewrite scalar_step_app, division_step_app, scalar_step_app.
  rewrite scalar_step_app.
  unfold append.
  destruct saturate, cl; cbn [negb]; rewrite <- ?app_assoc, ?app_nil_r;
    reflexivity.
Qed.

Lemma even_mod2 (n : Z) : Z.even n = true <-> (n mod 2 = 0)%Z.
Proof. rewrite Zeven_mod. apply Z.eqb_eq. Qed.

(** C5: the convolution builder raises its invalid-input error exactly when
    the flattened weight sequence has even length, or length below 3, or (in
    square mode only) a length that is not a perfect square; when none of
    these hold it returns a result; it raises no other error; and the error
    is decided by the number of weights and the mode alone, before any
    fragment is built. *)
Theorem convolution_raises_iff (py_sum : list float -> float) (aka : bool)
    (var : string) (m : list (nested float)) (bias : option number)
    (divisor : divisor_arg) (saturate : bool) (mode : ConvMode)
    (pre mul : option number) (cl : bool) :
  let n := Z.of_nat (List.length (flatten m)) in
  let r := convolution py_sum aka var m bias divisor saturate mode pre mul cl in
  let invalid :=
    Z.even n = true \/ (n < 3)%Z \/ (mode = SQUARE /\ ~ perfect_square n) in
  ((exists msg, r = Err (ValueError msg)) <-> invalid) /\
  ((exists out, r = Ok out) <-> ~ invalid) /\
  (forall e, r = Err e -> exists msg, e = ValueError msg) /\
  (invalid ->
   forall py_sum' aka' var' bias' divisor' saturate' pre' mul' cl',
     convolution py_sum' aka' var' m bias' divisor' saturate' mode pre' mul' cl'
     = r).
Proof.
  intros n r invalid.
  assert (Hcases :
    (invalid /\ exists msg,
        forall py_sum' aka' var' bias' divisor' saturate' pre' mul' cl',
          convolution py_sum' aka' var' m bias' divisor' saturate' mode
            pre' mul' cl' = Err (ValueError msg))
    \/ (~ invalid /\ exists out, r = Ok out)).
  { destruct (Z.eq_dec (n mod 2) 0) as [Heven|Hodd].
    { left. split; [left; now apply even_mod2|].
      exists msg_odd. intros. now apply convolution_even. }
    destruct (Z.lt_ge_cases n 3) as [Hlt|Hge].
    { left. split; [right; left; exact Hlt|].
      exists msg_three. intros. now apply convolution_short. }
    destruct (Z.eq_dec n (Z.sqrt n ^ 2)) as [Hsq|Hnsq].
    - right. split.
      + intros [He|[Hlt|[_ Hn]]].
        * apply even_mod2 in He. contradiction.
        * lia.
        * apply Hn, sqrt_check_iff; [lia|exact Hsq].
      + eexists. apply convolution_valid; auto.
    - destruct mode eqn:Hmode.
      + left. split.
        * right; right. split; [reflexivity|].
          intros Hp. apply Hnsq, sqrt_check_iff; [lia|exact Hp].
        * exists msg_square. intros. apply convolution_not_square; auto.
          intros Hp. apply Hnsq, sqrt_check_iff; [lia|exact Hp].
      + right. split.
        * intros [He|[Hlt|[Hm _]]];
            [apply even_mod2 in He; contradiction|lia|discriminate].
        * eexists. apply convolution_valid; auto. discriminate.
      + right. split.
        * intros [He|[Hlt|[Hm _]]];
            [apply even_mod2 in He; contradiction|lia|discriminate].
        * eexists. apply convolution_valid; auto. discriminate. }
  destruct Hcases as [[Hinv [msg Hall]]|[Hval [out Hout]]].
  - assert (Hr : r = Err (ValueError msg)) by apply Hall.
    repeat split.
    + intros _. exact Hinv.
    + intros _. exists msg. exact Hr.
    + intros [out Hout]. rewrite Hr in Hout. discriminate.
    + intros Hn. contradiction.
    + intros e He. rewrite Hr in He. injection He as <-. now exists msg.
    + intros _ py_sum' aka' var' bias' divisor' saturate' pre' mul' cl'.
      rewrite Hr. apply Hall.
  - repeat split.
    + intros [msg Hmsg]. rewrite Hout in Hmsg. discriminate.
    + intros Hinv. contradiction.
    + intros _. exact Hval.
    + intros _. exists out. exact Hout.
    + intros e He. rewrite Hout in He. discriminate.
    + intros Hinv. contradiction.
Qed.

(** C6: for every valid weight sequence the builder pairs the pixel
    references of the neighbourhood with the weights in matrix order, one
    reference per weight; it leaves out every pair whose weight is 0, emits
    the bare reference for weight 1 and [[pixel_ref, weight, MUL]] otherwise,
    then [ADD] once less than there are kept terms; and when [divisor] is not
    [False] it resolves [True] to the float sum of all the weights and
    appends [[divisor, DIV]] exactly when the resolved divisor is neither 0
    nor 1. The other optional steps stand where the builder puts them. *)
Theorem convolution_weighted_sum (py_sum : list float -> float) (aka : bool)
    (var : string) (m : list (nested float)) (bias : option number)
    (divisor : divisor_arg) (saturate : bool) (mode : ConvMode)
    (pre mul : option number) (cl : bool) (out : ExprList) :
  convolution py_sum aka var m bias divisor saturate mode pre mul cl = Ok out ->
  let weights := flatten m in
  exists (radius : Z) (rel_pixels : ExprList),
    matrix var radius mode [] = Ok rel_pixels /\
    List.length rel_pixels = List.length weights /\
    let terms := weighted_terms rel_pixels weights in
    out =
    terms ++ repeat (FOp ADD) (List.length terms - 1)
    ++ scalar_step pre MUL
    ++ division_step (resolved_divisor py_sum divisor weights)
    ++ scalar_step bias ADD
    ++ (if saturate then [] else [FOp ABS])
    ++ scalar_step mul MUL
    ++ (if cl
        then [Seq (clamp aka (FTok RangeMin) (FTok RangeMax) (FStr ""))]
        else []).
Proof.
  intros Hout weights.
  set (n := Z.of_nat (List.length weights)).
  assert (Hodd : (n mod 2 <> 0)%Z).
  { intros H. apply (convolution_even py_sum aka var m bias divisor saturate
                       mode pre mul cl) in H.
    rewrite H in Hout. discriminate. }
  assert (Hge : (3 <= n)%Z).
  { destruct (Z.lt_ge_cases n 3) as [H|H]; [|exact H].
    apply (convolution_short py_sum aka var m bias divisor saturate
             mode pre mul cl Hodd) in H.
    rewrite H in Hout. discriminate. }
  assert (Hsq : is_square mode = true -> n = (Z.sqrt n ^ 2)%Z).
  { intros Hm. destruct (Z.eq_dec n (Z.sqrt n ^ 2)) as [H|H]; [exact H|].
    exfalso.
    assert (Hmode : mode = SQUARE) by (destruct mode; try discriminate; reflexivity).
    assert (Hp : ~ perfect_square n).
    { intros Hp. apply H, sqrt_check_iff; [lia|exact Hp]. }
    subst mode.
    pose proof (convolution_not_square py_sum aka var m bias divisor saturate
                  pre mul cl Hodd Hge Hp) as E.
    rewrite E in Hout. discriminate. }
  pose proof (convolution_valid py_sum aka var m bias divisor saturate
                mode pre mul cl Hodd Hge Hsq) as E.
  rewrite E in Hout. injection Hout as <-.
  destruct (valid_radius mode n Hodd Hge Hsq) as [Hr Hlen].
  exists (conv_radius mode n),
         (map (pixel var) (coordinates (conv_radius mode n) mode)).
  split; [|split].
  - rewrite matrix_ok, filter_no_exclusion. reflexivity.
  - rewrite length_map, coordinates_length by exact Hr.
    rewrite Hlen. unfold n. apply Nat2Z.id.
  - reflexivity.
Qed.

(** The theorem at the weights 1, 0, 2 on a horizontal line with the
    automatic divisor: the zero weight is left out, two terms remain, one
    [ADD] folds them and the sum 3 divides. *)
Lemma convolution_weighted_sum_witness :
  convolution left_sum false "x" [Leaf 1%float; Leaf 0%float; Leaf 2%float]
    None (DivBool true) true HORIZONTAL None None false =
  Ok [FStr "x[-1,0]"; Seq [FStr "x[1,0]"; FNum (PyFloat 2); FOp MUL];
      FOp ADD; FNum (PyFloat 3); FOp DIV] /\
  exists (radius : Z) (rel_pixels : ExprList),
    matrix "x" radius HORIZONTAL [] = Ok rel_pixels /\
    List.length rel_pixels = 3%nat /\
    [FStr "x[-1,0]"; Seq [FStr "x[1,0]"; FNum (PyFloat 2); FOp MUL];
     FOp ADD; FNum (PyFloat 3); FOp DIV] =
    weighted_terms rel_pixels [1%float; 0%float; 2%float]
    ++ repeat (FOp ADD)
         (List.length (weighted_terms rel_pixels [1%float; 0%float; 2%float]) - 1)
    ++ [FNum (PyFloat 3); FOp DIV].
Proof.
  split; [reflexivity|].
  exact (convolution_weighted_sum left_sum false "x"
           [Leaf 1%float; Leaf 0%float; Leaf 2%float]
           None (DivBool true) true HORIZONTAL None None false _ eq_refl).
Defined.

(** ** The clamp builder *)

(** C1: for every minimum bound [A], maximum bound [B] and fragment [C],
    [ExprOp.clamp(min=A, max=B, c=C)] returns [[C, A, MAX, B, MAX]] when the
    extended engine is unavailable and [[C, A, B, CLAMP]] when it is
    available. *)
Theorem clamp_fragments (A B C : frag) :
  clamp false A B C = [C; A; FOp MAX; B; FOp MAX] /\
  clamp true A B C = [C; A; B; FOp CLAMP].
Proof.
  split; reflexivity.
Qed.

(** ** The difference builders *)

Lemma append_loop {A : Type} (f : A -> frag) (l : list A) (acc : ExprList) :
  fold_left (fun expr a => append expr [f a]) l acc = acc ++ map f l.
Proof.
  revert acc. induction l as [|a l IH]; intros acc; cbn.
  - now rewrite app_nil_r.
  - rewrite IH. unfold append. now rewrite <- app_assoc.
Qed.

Lemma parse_planes_equal (a b : ExprVarRangeT) (func : func_tag) :
  vars_len (ExprVars a) = vars_len (ExprVars b) ->
  _parse_planes a (Some b) func = Ok (ExprVars a, ExprVars b).
Proof.
  intros H. unfold _parse_planes. rewrite H, Nat.eqb_refl. reflexivity.
Qed.

Lemma parse_planes_unequal (a b : ExprVarRangeT) (func : func_tag) :
  vars_len (ExprVars a) <> vars_len (ExprVars b) ->
  _parse_planes a (Some b) func = Err (CustomIndexError msg_planes func).
Proof.
  intros H. unfold _parse_planes.
  destruct (Nat.eqb_spec (vars_len (ExprVars a)) (vars_len (ExprVars b)));
    [contradiction|reflexivity].
Qed.

Lemma eval_app (env : string -> R) (p q : list atom) (st : list R) :
  eval env (p ++ q) st =
  match eval env p st with
  | Some st' => eval env q st'
  | None => None
  end.
Proof.
  revert st. induction p as [|a p IH]; intros st; cbn; [reflexivity|].
  destruct (eval_atom env a st); [apply IH|reflexivity].
Qed.

Lemma sqrt_of_square (x : R) : sqrt (x * x) = Rabs x.
Proof. apply sqrt_Rsqr_abs. Qed.

(** Both per-pair programs leave the absolute differences on the stack. *)
Lemma eval_rmse_pairs (env : string -> R) (pairs : list (string * string))
    (st : list R) :
  eval env (flatten (map rmse_pair pairs)) st = Some (abs_diffs env pairs ++ st).
Proof.
  revert st. induction pairs as [|[a b] pairs IH]; intros st; [reflexivity|].
  unfold flatten in *. cbn [map flat_map]. rewrite eval_app.
  cbn. rewrite sqrt_of_square, IH. unfold abs_diffs. cbn [map rev fst snd].
  now rewrite <- app_assoc.
Qed.

Lemma eval_mae_pairs (env : string -> R) (pairs : list (string * string))
    (st : list R) :
  eval env (flatten (map mae_pair pairs)) st = Some (abs_diffs env pairs ++ st).
Proof.
  revert st. induction pairs as [|[a b] pairs IH]; intros st; [reflexivity|].
  unfold flatten in *. cbn [map flat_map]. rewrite eval_app.
  cbn. rewrite IH. unfold abs_diffs. cbn [map rev fst snd].
  now rewrite <- app_assoc.
Qed.

Lemma eval_max_fold (env : string -> R) (k : nat) (st : list R) :
  (k < List.length st)%nat ->
  eval env (repeat (AOp MAX) k) st = Some (max_fold k st).
Proof.
  revert st. induction k as [|k IH]; intros st Hk; [now destruct st|].
  destruct st as [|y [|x r]]; cbn in Hk; try lia.
  cbn. apply IH. cbn. lia.
Qed.

Lemma max_fold_length (k : nat) (st : list R) :
  (k < List.length st)%nat ->
  List.length (max_fold k st) = (List.length st - k)%nat.
Proof.
  revert st. induction k as [|k IH]; intros st Hk; [destruct st; cbn; lia|].
  destruct st as [|y [|x r]]; cbn in Hk; try lia.
  cbn [max_fold]. rewrite IH by (cbn; lia). cbn. lia.
Qed.

Lemma flatten_fold (body : ExprList) (o : ExprOp) (k : nat) :
  flatten (body ++ [Seq (repeat (FOp o) k)]) =
  flatten body ++ repeat (AOp o) k.
Proof.
  unfold flatten. rewrite flat_map_app. f_equal. cbn. rewrite app_nil_r.
  induction k as [|k IH]; [reflexivity|]. cbn. now rewrite IH.
Qed.

(** C2: for every pair of equal-length plane-variable ranges, [rmse] emits
    [[a, b, SUB, DUP, MUL, SQRT]] and [mae] emits [[a, b, SUB, ABS]] for each
    pair, both followed by [MAX] once less than there are pairs; and run by
    the postfix machine over exact reals, for every assignment of sample
    values, both programs stop with the same stack, a single value as soon
    as there is a pair. *)
Theorem rmse_mae_agree (planesa planesb : ExprVarRangeT) :
  vars_len (ExprVars planesa) = vars_len (ExprVars planesb) ->
  let pairs :=
    List.combine (vars_iter (ExprVars planesa)) (vars_iter (ExprVars planesb)) in
  let fold := Seq (repeat (FOp MAX) (List.length pairs - 1)) in
  let rmse_out :=
    map (fun ab : string * string =>
           Seq [FStr (fst ab); FStr (snd ab);
                FOp SUB; FOp DUP; FOp MUL; FOp SQRT]) pairs ++ [fold] in
  let mae_out :=
    map (fun ab : string * string =>
           Seq [FStr (fst ab); FStr (snd ab); FOp SUB; FOp ABS]) pairs
    ++ [fold] in
  rmse planesa (Some planesb) = Ok rmse_out /\
  mae planesa (Some planesb) = Ok mae_out /\
  forall env : string -> R,
    exists st : list R,
      eval env (flatten rmse_out) [] = Some st /\
      eval env (flatten mae_out) [] = Some st /\
      List.length st = Nat.min 1 (List.length pairs).
Proof.
  intros Hlen pairs fold rmse_out mae_out.
  assert (Hr : rmse_out = map rmse_pair pairs ++ [fold]).
  { unfold rmse_out. apply (f_equal (fun l => l ++ [fold])).
    apply map_ext. now intros [a b]. }
  assert (Hm : mae_out = map mae_pair pairs ++ [fold]).
  { unfold mae_out. apply (f_equal (fun l => l ++ [fold])).
    apply map_ext. now intros [a b]. }
  split; [|split].
  - unfold rmse. rewrite (parse_planes_equal _ _ _ Hlen). cbn [bind].
    rewrite append_loop, op_mul_mlength. cbn [app]. unfold append.
    rewrite length_map. rewrite Hr. reflexivity.
  - unfold mae. rewrite (parse_planes_equal _ _ _ Hlen). cbn [bind].
    rewrite append_loop, op_mul_mlength. cbn [app]. unfold append.
    rewrite length_map. rewrite Hm. reflexivity.
  - intros env. rewrite Hr, Hm. unfold fold. rewrite !flatten_fold, !eval_app.
    rewrite eval_rmse_pairs, eval_mae_pairs, app_nil_r.
    assert (Hd : List.length (abs_diffs env pairs) = List.length pairs).
    { unfold abs_diffs. now rewrite length_rev, length_map. }
    destruct pairs as [|p pairs'] eqn:Hp.
    + exists []. cbn. repeat split; reflexivity.
    + exists (max_fold (List.length (p :: pairs') - 1) (abs_diffs env (p :: pairs'))).
      assert (Hk : (List.length (p :: pairs') - 1 < List.length (abs_diffs env (p :: pairs')))%nat)
        by (rewrite Hd; cbn; lia).
      repeat split; try (apply eval_max_fold; exact Hk).
      rewrite max_fold_length by exact Hk. rewrite Hd. cbn [List.length]. lia.
Qed.

(** The theorem at the ranges x, y, z and a, b, c. *)
Lemma rmse_mae_agree_witness :
  vars_len (ExprVars (RangeCount 3)) =
  vars_len (ExprVars (RangeVars (mkExprVars 3 6))) /\
  rmse (RangeCount 3) (Some (RangeVars (mkExprVars 3 6))) =
  Ok [Seq [FStr "x"; FStr "a"; FOp SUB; FOp DUP; FOp MUL; FOp SQRT];
      Seq [FStr "y"; FStr "b"; FOp SUB; FOp DUP; FOp MUL; FOp SQRT];
      Seq [FStr "z"; FStr "c"; FOp SUB; FOp DUP; FOp MUL; FOp SQRT];
      Seq [FOp MAX; FOp MAX]] /\
  mae (RangeCount 3) (Some (RangeVars (mkExprVars 3 6))) =
  Ok [Seq [FStr "x"; FStr "a"; FOp SUB; FOp ABS];
      Seq [FStr "y"; FStr "b"; FOp SUB; FOp ABS];
      Seq [FStr "z"; FStr "c"; FOp SUB; FOp ABS];
      Seq [FOp MAX; FOp MAX]].
Proof.
  split; [reflexivity|].
  pose proof (rmse_mae_agree (RangeCount 3) (RangeVars (mkExprVars 3 6)) eq_refl)
    as [Hr [Hm _]].
  split; [exact Hr|exact Hm].
Defined.

(** C10: when [ExprOp.mae] is called with two plane-variable ranges of
    unequal length, the length-mismatch error it raises carries [ExprOp.rmse]
    as its attribution, not [ExprOp.mae]: it is the very error [rmse] raises
    on the same ranges. *)
Theorem mae_mismatch_blames_rmse (planesa planesb : ExprVarRangeT) :
  vars_len (ExprVars planesa) <> vars_len (ExprVars planesb) ->
  mae planesa (Some planesb) = Err (CustomIndexError msg_planes Func_rmse) /\
  mae planesa (Some planesb) <> Err (CustomIndexError msg_planes Func_mae) /\
  mae planesa (Some planesb) = rmse planesa (Some planesb).
Proof.
  intros Hlen.
  assert (Hm : mae planesa (Some planesb) =
               Err (CustomIndexError msg_planes Func_rmse)).
  { unfold mae. now rewrite (parse_planes_unequal _ _ _ Hlen). }
  split; [exact Hm|split].
  - rewrite Hm. discriminate.
  - rewrite Hm. unfold rmse. now rewrite (parse_planes_unequal _ _ _ Hlen).
Qed.

(** The theorem at a range of three names against a range of two. *)
Lemma mae_mismatch_blames_rmse_witness :
  vars_len (ExprVars (RangeCount 3)) <> vars_len (ExprVars (RangeCount 2)) /\
  mae (RangeCount 3) (Some (RangeCount 2)) =
  Err (CustomIndexError msg_planes Func_rmse).
Proof.
  assert (H : vars_len (ExprVars (RangeCount 3)) <>
              vars_len (ExprVars (RangeCount 2))) by (cbn; lia).
  split; [exact H|].
  exact (proj1 (mae_mismatch_blames_rmse (RangeCount 3) (RangeCount 2) H)).
Defined.

(** ** Token values *)

(** C9: for every clip that has a format, [LumaMin], [ChromaMin], [Lumamax]
    and [Chromamax] resolve against the limited range whatever range the
    clip declares, whereas [RangeMin] and [RangeMax] resolve against the range
    the clip declares; with the studio levels an 8-bit clip yields 16 and 235
    for luma under both declarations, and [RangeMin] and [RangeMax] yield 16
    and 235 when it declares the limited range. *)
Theorem limited_tokens_ignore_declared_range
    (lowest_level peak_level : VideoFormat -> bool -> ColorRange -> number)
    (neutral_level : VideoFormat -> bool -> number)
    (fmt : VideoFormat) (declared : ColorRange) (chroma : bool)
    (range_in : ColorRange) (n_planes : nat) :
  let value t :=
    get_value lowest_level peak_level neutral_level t
      (mkVideoNode (Some fmt) declared) chroma range_in in
  let value8 t d :=
    get_value std_lowest std_peak std_neutral t
      (mkVideoNode (Some (mkVideoFormat INTEGER 8 n_planes)) d)
      false range_in in
  (value LumaMin = Ok (lowest_level fmt false LIMITED) /\
   value ChromaMin = Ok (lowest_level fmt true LIMITED) /\
   value Lumamax = Ok (peak_level fmt false LIMITED) /\
   value Chromamax = Ok (peak_level fmt true LIMITED)) /\
  (value RangeMin = Ok (lowest_level fmt chroma declared) /\
   value RangeMax = Ok (peak_level fmt chroma declared)) /\
  (value8 LumaMin LIMITED = Ok (PyInt 16) /\
   value8 LumaMin FULL = Ok (PyInt 16) /\
   value8 Lumamax LIMITED = Ok (PyInt 235) /\
   value8 Lumamax FULL = Ok (PyInt 235) /\
   value8 RangeMin LIMITED = Ok (PyInt 16) /\
   value8 RangeMax LIMITED = Ok (PyInt 235)).
Proof.
  cbv zeta. repeat split.
Qed.

(** ** The expression pipeline *)

Lemma Z_in_range (n : nat) (i : nat) :
  (i < n)%nat -> Z_in (Z.of_nat i) (range 0 (Z.of_nat n)) = true.
Proof.
  intros Hi. unfold Z_in. apply existsb_exists. exists (Z.of_nat i).
  split; [|apply Z.eqb_refl].
  unfold range. apply in_map_iff. exists i. split; [lia|].
  apply in_seq. lia.
Qed.

Lemma Z_in_filter (x : Z) (f : Z -> bool) (l : list Z) :
  Z_in x (filter f l) = Z_in x l && f x.
Proof.
  unfold Z_in. induction l as [|a l IH]; [reflexivity|].
  cbn [filter]. destruct (f a) eqn:Hfa; cbn [existsb]; rewrite IH.
  - destruct (Z.eqb_spec x a) as [->|_]; cbn [orb andb]; [|reflexivity].
    now rewrite Hfa.
  - destruct (Z.eqb_spec x a) as [->|_]; cbn [orb andb]; [|reflexivity].
    now rewrite Hfa, andb_false_r.
Qed.

(** A plane index below the plane count is in the normalized selection
    exactly when the selector selects it. *)
Lemma Z_in_normalise (n : nat) (planes : planes_arg) (i : nat) :
  (i < n)%nat ->
  Z_in (Z.of_nat i) (normalise_planes n planes) = plane_selected planes i.
Proof.
  intros Hi. destruct planes as [|p|ps]; cbn [normalise_planes plane_selected].
  - apply Z_in_range, Hi.
  - rewrite Z_in_filter, Z_in_range by exact Hi. cbn. apply Z.eqb_sym.
  - rewrite Z_in_filter, Z_in_range by exact Hi. reflexivity.
Qed.

Lemma range_0_map (n : nat) : range 0 (Z.of_nat n) = map Z.of_nat (seq 0 n).
Proof.
  unfold range. rewrite Z.sub_0_r, Nat2Z.id. apply map_ext. intros; lia.
Qed.

(** The per-plane texts [expr] hands to the engine. *)
Lemma expr_ok (repr_float : float -> string) (aka : bool)
    (firstclip : VideoNode) (rest : list VideoNode) (fmt : VideoFormat)
    (e : list frag) (planes : planes_arg) (kw : ExprKwargs) :
  format firstclip = Some fmt ->
  expr repr_float aka (firstclip :: rest) e planes kw =
  Ok (expr_func aka (firstclip :: rest)
        (map (fun i => if plane_selected planes i
                       then expr_string repr_float e else "")
           (seq 0 (num_planes fmt)))
        kw).
Proof.
  intros Hfmt. unfold expr. rewrite Hfmt. cbv zeta. do 2 f_equal.
  rewrite range_0_map, map_map. apply map_ext_in. intros i Hi.
  apply in_seq in Hi. now rewrite Z_in_normalise by lia.
Qed.

Lemma call_expr_func (aka : bool) (clips : list VideoNode)
    (texts : list string) (kw : ExprKwargs) :
  call_expr (expr_func aka clips texts kw) = texts.
Proof. unfold expr_func. now destruct aka. Qed.

(** C8: for every nested fragment structure, [expr] flattens it, drops the
    entries that are [None] or the empty string, stringifies and strips each
    remaining entry and joins them with single spaces into one text; the
    sequence it hands to the engine has one entry per plane of the first
    clip, the text at every selected plane index and the empty string at the
    others. *)
Theorem expr_per_plane (repr_float : float -> string) (aka : bool)
    (firstclip : VideoNode) (rest : list VideoNode) (fmt : VideoFormat)
    (e : list frag) (planes : planes_arg) (kw : ExprKwargs) :
  format firstclip = Some fmt ->
  let text :=
    String.concat " "
      (map (fun x => strip (str repr_float x)) (filter kept (flatten e))) in
  exists call : EngineCall,
    expr repr_float aka (firstclip :: rest) e planes kw = Ok call /\
    List.length (call_expr call) = num_planes fmt /\
    forall i : nat,
      (i < num_planes fmt)%nat ->
      nth_error (call_expr call) i =
      Some (if plane_selected planes i then text else "").
Proof.
  intros Hfmt text. eexists. split; [apply expr_ok, Hfmt|].
  rewrite call_expr_func. split.
  - now rewrite length_map, length_seq.
  - intros i Hi. rewrite nth_error_map, nth_error_seq.
    destruct (Nat.ltb_spec i (num_planes fmt)); [reflexivity|lia].
Qed.

(** The theorem at a three-plane clip with only plane 1 selected: the text
    stands at index 1 and the other two entries are empty. *)
Lemma expr_per_plane_witness :
  format yuv8 = Some (mkVideoFormat INTEGER 8 3) /\
  exists call : EngineCall,
    expr repr_unused false [yuv8]
      [FStr " x "; FNone; Seq [FStr ""; FNum (PyInt 2); Seq [FOp MUL]]]
      (PlanesOne 1) no_kwargs = Ok call /\
    List.length (call_expr call) = 3%nat /\
    forall i : nat,
      (i < 3)%nat ->
      nth_error (call_expr call) i =
      Some (if plane_selected (PlanesOne 1) i then "x 2 *" else "").
Proof.
  split; [reflexivity|].
  exact (expr_per_plane repr_unused false yuv8 []
           (mkVideoFormat INTEGER 8 3)
           [FStr " x "; FNone; Seq [FStr ""; FNum (PyInt 2); Seq [FOp MUL]]]
           (PlanesOne 1) no_kwargs eq_refl).
Defined.

(** The same call, evaluated. *)
Example expr_plane_1_of_3 :
  expr repr_unused false [yuv8]
    [FStr " x "; FNone; Seq [FStr ""; FNum (PyInt 2); Seq [FOp MUL]]]
    (PlanesOne 1) no_kwargs =
  Ok (StdExpr [yuv8] [""; "x 2 *"; ""] None).
Proof. reflexivity. Qed.

(** ** Combining clips *)

(** C3, as the claim states it, fails: three clips combined with [ADD] and no
    prefixes or suffixes give the text [x y z + +], not [x y + z +]. *)
Lemma combine_add_three_not_interleaved :
  exists call : EngineCall,
    combine repr_unused false [gray8; gray8; gray8] ADD
      FfixNone FfixNone FNone FNone PlanesNone no_kwargs = Ok call /\
    call_expr call = ["x y z + +"] /\
    call_expr call <> ["x y + z +"].
Proof.
  eexists. split; [reflexivity|]. split; [reflexivity|discriminate].
Qed.

(** C3, amended: combining 3 clips with operator [ADD] and no prefixes or
    suffixes hands the engine the text [x y z + +] at every selected plane:
    the three clip variables in order, followed by the operator, which
    appears (clip count - 1) times. *)
Theorem combine_add_three (repr_float : float -> string) (aka : bool)
    (c1 c2 c3 : VideoNode) (fmt : VideoFormat) (planes : planes_arg)
    (kw : ExprKwargs) :
  format c1 = Some fmt ->
  exists call : EngineCall,
    combine repr_float aka [c1; c2; c3] ADD
      FfixNone FfixNone FNone FNone planes kw = Ok call /\
    call_expr call =
    map (fun i => if plane_selected planes i then "x y z + +" else "")
      (seq 0 (num_planes fmt)).
Proof.
  intros Hfmt. eexists. split.
  - unfold combine. cbn [List.length combine_args _combine_norm__ix bind].
    apply expr_ok, Hfmt.
  - rewrite call_expr_func. reflexivity.
Qed.

(** The theorem at three one-plane clips with every plane selected. *)
Lemma combine_add_three_witness :
  format gray8 = Some (mkVideoFormat INTEGER 8 1) /\
  exists call : EngineCall,
    combine repr_unused true [gray8; gray8; gray8] ADD
      FfixNone FfixNone FNone FNone PlanesNone no_kwargs = Ok call /\
    call_expr call = ["x y z + +"].
Proof.
  split; [reflexivity|].
  exact (combine_add_three repr_unused true gray8 gray8 gray8
           (mkVideoFormat INTEGER 8 1) PlanesNone no_kwargs eq_refl).
Defined.

(** C4, at the failing input: with a two-element prefix list and a
    two-element suffix list over 5 clips the code produces 6 per-clip
    entries, one more than there are clips; the sixth names the variable of a
    clip that does not exist. With the prefix left out, the same suffix list
    gives the 5 entries of the claim. *)
Theorem combine_args_one_too_many :
  combine_args 5 (FfixList [FStr "p0"; FStr "p1"])
    (FfixList [FStr "s0"; FStr "s1"]) =
  Ok [(FStr "p0", "x", FStr "s0"); (FStr "p1", "y", FStr "s1");
      (FStr "p0", "z", FStr "s0"); (FStr "p1", "a", FStr "s1");
      (FStr "p0", "b", FStr "s0"); (FStr "p1", "c", FStr "s1")] /\
  combine_args 5 FfixNone (FfixList [FStr "s0"; FStr "s1"]) =
  Ok [(FStr "", "x", FStr "s0"); (FStr "", "y", FStr "s1");
      (FStr "", "z", FStr "s0"); (FStr "", "a", FStr "s1");
      (FStr "", "b", FStr "s0")].
Proof. split; reflexivity. Qed.

(** * Further properties of the code *)

(** ** Calling an operator *)

(** X1: calling an operator that has no placeholder returns its own code,
    whatever positional and keyword arguments it is given. *)
Theorem call_plain_operator (o : ExprOp) (args : list arg)
    (kwargs : list (string * arg)) :
  o <> REL_PIX -> o <> ABS_PIX -> call o args kwargs = Ok (op_value o).
Proof.
  intros H1 H2. destruct o; try contradiction; destruct args; reflexivity.
Qed.

Lemma call_plain_operator_witness :
  ADD <> REL_PIX /\ ADD <> ABS_PIX /\
  call ADD [ArgStr "x"; ArgInt 3] [("y", ArgInt 1)] = Ok "+".
Proof.
  assert (H1 : ADD <> REL_PIX) by discriminate.
  assert (H2 : ADD <> ABS_PIX) by discriminate.
  split; [exact H1|]. split; [exact H2|].
  exact (call_plain_operator ADD [ArgStr "x"; ArgInt 3] [("y", ArgInt 1)] H1 H2).
Defined.

(** X2: positional arguments fill the placeholders in the order in which the
    template names them, so [ABS_PIX] takes them as (x, y, char) and gives
    [x y char[]]; handed (char, x, y), the order of [REL_PIX], it raises a
    [ValueError], the string meeting the integer conversion. *)
Theorem call_abs_pix_order (v : string) (x y : Z) :
  call ABS_PIX [ArgInt x; ArgInt y; ArgStr v] [] =
  Ok (dec x ++ " " ++ dec y ++ " " ++ v ++ "[]")%string /\
  exists msg,
    call ABS_PIX [ArgStr v; ArgInt x; ArgInt y] [] = Err (ValueError msg).
Proof.
  split; [reflexivity|]. eexists. reflexivity.
Qed.

(** X3: with too few arguments the call re-raises the [KeyError] of the first
    placeholder, in template order, that no argument is left to fill. *)
Theorem call_missing_argument (v : string) (x y : Z) :
  call REL_PIX [] [] = Err (KeyError "char") /\
  call REL_PIX [ArgStr v] [] = Err (KeyError "x") /\
  call REL_PIX [ArgStr v; ArgInt x] [] = Err (KeyError "y") /\
  call ABS_PIX [] [] = Err (KeyError "x") /\
  call ABS_PIX [ArgInt x] [] = Err (KeyError "y") /\
  call ABS_PIX [ArgInt x; ArgInt y] [] = Err (KeyError "char").
Proof. repeat split. Qed.

(** X4: keyword arguments are used as given and positional arguments fill
    only the placeholders still missing, in template order; positional
    arguments left over once every placeholder is filled are ignored. *)
Theorem call_keywords_first (v : string) (x y : Z) (extra : list arg) :
  call REL_PIX extra [("char", ArgStr v); ("x", ArgInt x); ("y", ArgInt y)] =
  Ok (rel_pix v x y) /\
  call REL_PIX ([ArgStr v; ArgInt y] ++ extra) [("x", ArgInt x)] =
  Ok (rel_pix v x y) /\
  call REL_PIX ([ArgStr v; ArgInt x; ArgInt y] ++ extra) [] =
  Ok (rel_pix v x y).
Proof.
  repeat split; destruct extra; reflexivity.
Qed.

(** ** The matrix builder beyond the square *)

Lemma range_empty (a b : Z) : (b <= a)%Z -> range a b = [].
Proof.
  intros H. unfold range.
  replace (Z.to_nat (b - a)) with 0%nat by lia. reflexivity.
Qed.

(** X5: a negative radius gives the empty matrix in every mode, whatever is
    excluded. *)
Theorem matrix_negative_radius (v : string) (r : Z) (mode : ConvMode)
    (exclude : list (Z * Z)) :
  (r < 0)%Z -> matrix v r mode exclude = Ok [].
Proof.
  intros Hr. rewrite matrix_ok.
  assert (H : coordinates r mode = []).
  { unfold coordinates. rewrite range_empty by lia. now destruct mode. }
  now rewrite H.
Qed.

Lemma matrix_negative_radius_witness :
  (-1 < 0)%Z /\ matrix "x" (-1) SQUARE [] = Ok [].
Proof.
  split; [lia|].
  exact (matrix_negative_radius "x" (-1) SQUARE [] ltac:(lia)).
Defined.

(** X6: in the two line modes the matrix of radius [r >= 0] has [2r+1]
    entries; entry [k] is the pixel at offset [k - r] along the line, [(k - r,
    0)] when horizontal and [(0, k - r)] when vertical, the bare variable in
    the middle. *)
Theorem matrix_line (v : string) (r : Z) :
  (0 <= r)%Z ->
  exists h w : ExprList,
    matrix v r HORIZONTAL [] = Ok h /\
    matrix v r VERTICAL [] = Ok w /\
    List.length h = Z.to_nat (2 * r + 1) /\
    List.length w = Z.to_nat (2 * r + 1) /\
    forall k : Z,
      (0 <= k <= 2 * r)%Z ->
      nth_error h (Z.to_nat k) = Some (pixel v (k - r, 0)%Z) /\
      nth_error w (Z.to_nat k) = Some (pixel v (0, k - r)%Z).
Proof.
  intros Hr. do 2 eexists. rewrite !matrix_ok, !filter_no_exclusion.
  split; [reflexivity|]. split; [reflexivity|].
  unfold coordinates. rewrite !length_map, !range_length.
  replace (r + 1 - - r)%Z with (2 * r + 1)%Z by lia.
  split; [reflexivity|]. split; [reflexivity|].
  intros k Hk. rewrite !nth_error_map, range_nth_error by lia.
  cbn [option_map]. rewrite Z2Nat.id by lia.
  replace (- r + k)%Z with (k - r)%Z by lia. split; reflexivity.
Qed.

Lemma matrix_line_witness :
  (0 <= 1)%Z /\
  exists h w : ExprList,
    matrix "x" 1 HORIZONTAL [] = Ok h /\
    matrix "x" 1 VERTICAL [] = Ok w /\
    List.length h = 3%nat /\
    List.length w = 3%nat /\
    forall k : Z,
      (0 <= k <= 2 * 1)%Z ->
      nth_error h (Z.to_nat k) = Some (pixel "x" (k - 1, 0)%Z) /\
      nth_error w (Z.to_nat k) = Some (pixel "x" (0, k - 1)%Z).
Proof.
  split; [lia|]. exact (matrix_line "x" 1 ltac:(lia)).
Defined.

(** ** The convolution builder: accepted sizes and empty sums *)

Lemma convolution_ok_valid (py_sum : list float -> float) (aka : bool)
    (var : string) (m : list (nested float)) (bias : option number)
    (divisor : divisor_arg) (saturate : bool) (mode : ConvMode)
    (pre mul : option number) (cl : bool) (out : ExprList) :
  convolution py_sum aka var m bias divisor saturate mode pre mul cl = Ok out ->
  let n := Z.of_nat (List.length (flatten m)) in
  (n mod 2 <> 0)%Z /\ (3 <= n)%Z /\
  (is_square mode = true -> n = Z.sqrt n ^ 2)%Z.
Proof.
  intros Hout n.
  assert (Hodd : (n mod 2 <> 0)%Z).
  { intros H. apply (convolution_even py_sum aka var m bias divisor saturate
                       mode pre mul cl) in H.
    rewrite H in Hout. discriminate. }
  assert (Hge : (3 <= n)%Z).
  { destruct (Z.lt_ge_cases n 3) as [H|H]; [|exact H].
    apply (convolution_short py_sum aka var m bias divisor saturate
             mode pre mul cl Hodd) in H.
    rewrite H in Hout. discriminate. }
  repeat split; try assumption.
  intros Hm. destruct (Z.eq_dec n (Z.sqrt n ^ 2)) as [H|H]; [exact H|].
  exfalso.
  assert (Hmode : mode = SQUARE)
    by (destruct mode; try discriminate; reflexivity).
  subst mode.
  assert (Hp : ~ perfect_square n).
  { intros Hp. apply H, sqrt_check_iff; [lia|exact Hp]. }
  pose proof (convolution_not_square py_sum aka var m bias divisor saturate
                pre mul cl Hodd Hge Hp) as E.
  rewrite E in Hout. discriminate.
Qed.

Lemma weighted_terms_zero (ps : list frag) (ws : list float) :
  Forall (fun w => PrimFloat.eqb w 0%float = true) ws ->
  weighted_terms ps ws = [].
Proof.
  intros H. revert ps.
  induction H as [|w ws Hw _ IH]; intros [|p ps]; try reflexivity.
  cbn. now rewrite Hw.
Qed.

Lemma odd_square_mod (r : Z) : ((2 * r + 1) ^ 2 mod 2 = 1)%Z.
Proof.
  replace ((2 * r + 1) ^ 2)%Z with (1 + (2 * r * r + 2 * r) * 2)%Z by ring.
  now rewrite Z.mod_add by lia.
Qed.

(** X7: the builder accepts a weight sequence exactly when its length is that
    of a neighbourhood of some radius [r >= 1]: [2r+1] weights in a line
    mode, [(2r+1)^2] in square mode. A single weight (radius 0) is refused in
    every mode. *)
Theorem convolution_accepts_radius (py_sum : list float -> float)
    (aka : bool) (var : string) (m : list (nested float))
    (bias : option number) (divisor : divisor_arg) (saturate : bool)
    (mode : ConvMode) (pre mul : option number) (cl : bool) :
  let n := Z.of_nat (List.length (flatten m)) in
  (exists out,
     convolution py_sum aka var m bias divisor saturate mode pre mul cl =
     Ok out)
  <->
  (exists r : Z,
     (1 <= r)%Z /\
     n = if is_square mode then ((2 * r + 1) ^ 2)%Z else (2 * r + 1)%Z).
Proof.
  intros n. split.
  - intros [out Hout].
    destruct (convolution_ok_valid _ _ _ _ _ _ _ _ _ _ _ _ Hout)
      as [Hodd [Hge Hsq]].
    fold n in Hodd, Hge, Hsq.
    destruct (valid_radius mode n Hodd Hge Hsq) as [Hr Hn].
    exists (conv_radius mode n). split; [|now rewrite Hn].
    destruct (Z.eq_dec (conv_radius mode n) 0) as [E|]; [|lia].
    rewrite E in Hn. destruct (is_square mode); cbn in Hn; lia.
  - intros [r [Hr Hn]]. eexists. apply convolution_valid; fold n.
    + destruct (is_square mode); rewrite Hn.
      * rewrite odd_square_mod. lia.
      * replace (2 * r + 1)%Z with (1 + r * 2)%Z by lia.
        rewrite Z.mod_add by lia. cbn. lia.
    + destruct (is_square mode); rewrite Hn; nia.
    + intros Hm. rewrite Hm in Hn. rewrite Hn.
      rewrite !Z.pow_2_r, Z.sqrt_square by lia. reflexivity.
Qed.

(** X8: which message each refusal carries. An even number of weights, the
    empty sequence included, is refused as not odd; a single weight as fewer
    than 3 items; an odd number from 3 on that is no perfect square, in
    square mode, as not a square. *)
Theorem convolution_error_messages (py_sum : list float -> float)
    (aka : bool) (var : string) (m : list (nested float))
    (bias : option number) (divisor : divisor_arg) (saturate : bool)
    (mode : ConvMode) (pre mul : option number) (cl : bool) :
  let n := List.length (flatten m) in
  let r := convolution py_sum aka var m bias divisor saturate mode pre mul cl in
  (Nat.even n = true -> r = Err (ValueError msg_odd)) /\
  (n = 0%nat -> r = Err (ValueError msg_odd)) /\
  (n = 1%nat -> r = Err (ValueError msg_three)) /\
  (Nat.even n = false -> (3 <= n)%nat -> mode = SQUARE ->
   ~ perfect_square (Z.of_nat n) -> r = Err (ValueError msg_square)).
Proof.
  intros n r.
  assert (Heven : Nat.even n = true -> r = Err (ValueError msg_odd)).
  { intros He. apply convolution_even. fold n.
    apply Nat.even_spec in He. destruct He as [k Hk]. rewrite Hk.
    rewrite Nat2Z.inj_mul. cbn [Z.of_nat]. rewrite Z.mul_comm.
    apply Z.mod_mul. lia. }
  assert (Hoddz : Nat.even n = false -> (Z.of_nat n mod 2 <> 0)%Z).
  { intros Ho. rewrite <- Nat.negb_odd in Ho. apply negb_false_iff in Ho.
    apply Nat.odd_spec in Ho. destruct Ho as [k Hk]. rewrite Hk.
    replace (Z.of_nat (2 * k + 1)) with (1 + Z.of_nat k * 2)%Z by lia.
    rewrite Z.mod_add by lia. cbn. lia. }
  repeat split.
  - exact Heven.
  - intros H0. apply Heven. now rewrite H0.
  - intros H1. apply convolution_short; fold n; rewrite H1; cbn; lia.
  - intros Ho Hge Hm Hp. subst mode.
    apply convolution_not_square; fold n; auto. lia.
Qed.

(** X9: when every weight is 0 the builder emits no pixel reference and no
    [ADD]: with no other step asked for, the output is the division step
    alone, and nothing at all when [divisor] is [False] or resolves to 0. *)
Theorem convolution_all_zero (py_sum : list float -> float) (aka : bool)
    (var : string) (m : list (nested float)) (divisor : divisor_arg)
    (mode : ConvMode) (out : ExprList) :
  Forall (fun w => PrimFloat.eqb w 0%float = true) (flatten m) ->
  convolution py_sum aka var m None divisor true mode None None false =
  Ok out ->
  out = division_step (resolved_divisor py_sum divisor (flatten m)).
Proof.
  intros Hz Hout.
  destruct (convolution_ok_valid _ _ _ _ _ _ _ _ _ _ _ _ Hout)
    as [Hodd [Hge Hsq]].
  rewrite (convolution_valid py_sum aka var m None divisor true mode
             None None false Hodd Hge Hsq) in Hout.
  injection Hout as <-. cbv zeta. rewrite weighted_terms_zero by exact Hz.
  cbn. now rewrite app_nil_r.
Qed.

Lemma convolution_all_zero_witness :
  Forall (fun w => PrimFloat.eqb w 0%float = true)
    (flatten [Leaf 0%float; Seq [Leaf 0%float; Leaf (-0)%float]]) /\
  convolution left_sum false "x"
    [Leaf 0%float; Seq [Leaf 0%float; Leaf (-0)%float]]
    None (DivBool true) true VERTICAL None None false = Ok [] /\
  [] = division_step
         (resolved_divisor left_sum (DivBool true)
            (flatten [Leaf 0%float; Seq [Leaf 0%float; Leaf (-0)%float]])).
Proof.
  assert (Hz : Forall (fun w => PrimFloat.eqb w 0%float = true)
                 (flatten [Leaf 0%float; Seq [Leaf 0%float; Leaf (-0)%float]]))
    by (repeat constructor).
  split; [exact Hz|]. split; [reflexivity|].
  exact (convolution_all_zero left_sum false "x"
           [Leaf 0%float; Seq [Leaf 0%float; Leaf (-0)%float]]
           (DivBool true) VERTICAL [] Hz eq_refl).
Defined.

(** ** The difference builders on every input *)

(** The loop of a difference builder followed by its fold. *)
Lemma builder_ok (pair : string * string -> frag) (pa pb : ExprVarsT) :
  let pairs := List.combine (vars_iter pa) (vars_iter pb) in
  let expr := fold_left (fun expr ab => append expr [pair ab]) pairs [] in
  append expr [Seq (op_mul MAX (mlength expr))] =
  map pair pairs ++ [Seq (repeat (FOp MAX) (List.length pairs - 1))].
Proof.
  intros pairs expr. unfold expr. rewrite append_loop, op_mul_mlength.
  cbn [app]. unfold append. now rewrite length_map.
Qed.

Lemma parse_planes_default (a : ExprVarRangeT) (func : func_tag) :
  _parse_planes a None func =
  Ok (ExprVars a,
      mkExprVars (stop (ExprVars a))
        (stop (ExprVars a) + vars_len (ExprVars a))).
Proof.
  unfold _parse_planes.
  replace (vars_len (mkExprVars _ _)) with (vars_len (ExprVars a))
    by (unfold vars_len; cbn [start stop]; unfold vars_len; lia).
  now rewrite Nat.eqb_refl.
Qed.

Lemma rmse_ok (a b : ExprVarRangeT) :
  vars_len (ExprVars a) = vars_len (ExprVars b) ->
  let pairs := List.combine (vars_iter (ExprVars a)) (vars_iter (ExprVars b)) in
  rmse a (Some b) =
  Ok (map rmse_pair pairs ++ [Seq (repeat (FOp MAX) (List.length pairs - 1))]).
Proof.
  intros H pairs. unfold rmse. rewrite (parse_planes_equal _ _ _ H).
  cbn [bind]. f_equal. apply builder_ok.
Qed.

Lemma mae_ok (a b : ExprVarRangeT) :
  vars_len (ExprVars a) = vars_len (ExprVars b) ->
  let pairs := List.combine (vars_iter (ExprVars a)) (vars_iter (ExprVars b)) in
  mae a (Some b) =
  Ok (map mae_pair pairs ++ [Seq (repeat (FOp MAX) (List.length pairs - 1))]).
Proof.
  intros H pairs. unfold mae. rewrite (parse_planes_equal _ _ _ H).
  cbn [bind]. f_equal. apply builder_ok.
Qed.

(** X10: with the second range left out neither builder can raise the
    length-mismatch error: the second range is the block of equal length that
    starts where the first one stops, and the pairs run over the two. *)
Theorem difference_default_range (planesa : ExprVarRangeT) :
  let a := ExprVars planesa in
  let b := mkExprVars (stop a) (stop a + vars_len a) in
  let pairs := List.combine (vars_iter a) (vars_iter b) in
  let fold := Seq (repeat (FOp MAX) (List.length pairs - 1)) in
  vars_len b = vars_len a /\
  rmse planesa None = Ok (map rmse_pair pairs ++ [fold]) /\
  mae planesa None = Ok (map mae_pair pairs ++ [fold]).
Proof.
  intros a b pairs fold.
  split; [subst b; unfold vars_len; cbn [start stop]; unfold vars_len; lia|].
  unfold rmse, mae. rewrite parse_planes_default. cbn [bind].
  split; f_equal; apply builder_ok.
Qed.

(** X11: on every input [rmse] and [mae] have the same outcome: both raise,
    and then the same error, or both return, and then lists of the same
    length. *)
Theorem rmse_mae_same_outcome (planesa : ExprVarRangeT)
    (planesb : option ExprVarRangeT) :
  match rmse planesa planesb, mae planesa planesb with
  | Ok r, Ok m => List.length r = List.length m
  | Err e, Err e' => e = e'
  | _, _ => False
  end.
Proof.
  unfold rmse, mae.
  destruct (_parse_planes planesa planesb Func_rmse) as [[pa pb]|e];
    cbn [bind]; [|reflexivity].
  rewrite !builder_ok, !length_app, !length_map. reflexivity.
Qed.

(** Folding a stack with [max] leaves its greatest element. *)
Lemma max_fold_all (l : list R) (x : R) :
  exists v : R,
    max_fold (List.length l) (x :: l) = [v] /\
    (forall y, In y (x :: l) -> (y <= v)%R) /\ In v (x :: l).
Proof.
  revert x. induction l as [|y l IH]; intros x.
  - exists x. cbn. repeat split; [|now left].
    intros z [<-|[]]. apply Rle_refl.
  - cbn [List.length max_fold].
    destruct (IH (Rmax y x)) as [v [Hv [Hle Hin]]].
    exists v. split; [exact Hv|]. split.
    + intros z [<-|[<-|Hz]].
      * eapply Rle_trans; [apply Rmax_r|]. apply Hle. now left.
      * eapply Rle_trans; [apply Rmax_l|]. apply Hle. now left.
      * apply Hle. now right.
    + destruct Hin as [<-|Hin]; [|right; right; exact Hin].
      unfold Rmax. destruct (Rle_dec y x); [now left|right; now left].
Qed.

(** X12: what both builders compute. For equal-length ranges with at least
    one pair, and every assignment of sample values, the postfix machine
    ends both programs with one value: the greatest absolute difference
    [|a - b|] over the pairs, not a mean. *)
Theorem difference_is_maximum (planesa planesb : ExprVarRangeT)
    (env : string -> R) :
  vars_len (ExprVars planesa) = vars_len (ExprVars planesb) ->
  let pairs :=
    List.combine (vars_iter (ExprVars planesa)) (vars_iter (ExprVars planesb)) in
  pairs <> [] ->
  exists (r m : ExprList) (v : R),
    rmse planesa (Some planesb) = Ok r /\
    mae planesa (Some planesb) = Ok m /\
    eval env (flatten r) [] = Some [v] /\
    eval env (flatten m) [] = Some [v] /\
    (forall ab, In ab pairs -> (Rabs (env (fst ab) - env (snd ab)) <= v)%R) /\
    (exists ab, In ab pairs /\ v = Rabs (env (fst ab) - env (snd ab))).
Proof.
  intros Hlen pairs Hne.
  assert (Hd : exists x l, abs_diffs env pairs = x :: l /\
                           List.length l = (List.length pairs - 1)%nat).
  { assert (Hl : List.length (abs_diffs env pairs) = List.length pairs)
      by (unfold abs_diffs; now rewrite length_rev, length_map).
    destruct (abs_diffs env pairs) as [|x l].
    - destruct pairs; [contradiction|discriminate].
    - exists x, l. split; [reflexivity|]. cbn in Hl. lia. }
  destruct Hd as [x [l [Hxl Hll]]].
  destruct (max_fold_all l x) as [v [Hv [Hle Hin]]].
  assert (Hev : eval env (repeat (AOp MAX) (List.length pairs - 1))
                  (abs_diffs env pairs) = Some [v]).
  { rewrite eval_max_fold by (rewrite Hxl; cbn; lia).
    now rewrite Hxl, <- Hll, Hv. }
  exists (map rmse_pair pairs
          ++ [Seq (repeat (FOp MAX) (List.length pairs - 1))]),
         (map mae_pair pairs
          ++ [Seq (repeat (FOp MAX) (List.length pairs - 1))]),
         v.
  split; [apply rmse_ok, Hlen|]. split; [apply mae_ok, Hlen|].
  rewrite !flatten_fold, !eval_app, eval_rmse_pairs, eval_mae_pairs, app_nil_r.
  split; [exact Hev|]. split; [exact Hev|]. split.
  - intros ab Hab. apply Hle. rewrite <- Hxl. unfold abs_diffs.
    apply (proj1 (in_rev _ _)). apply in_map_iff. now exists ab.
  - rewrite <- Hxl in Hin. unfold abs_diffs in Hin.
    apply (proj2 (in_rev _ _)) in Hin.
    apply in_map_iff in Hin. destruct Hin as [ab [Hv' Hab]].
    exists ab. now split.
Qed.

Lemma difference_is_maximum_witness :
  vars_len (ExprVars (RangeCount 2)) =
  vars_len (ExprVars (RangeVars (mkExprVars 2 4))) /\
  List.combine (vars_iter (ExprVars (RangeCount 2)))
    (vars_iter (ExprVars (RangeVars (mkExprVars 2 4)))) <> [] /\
  exists (r m : ExprList) (v : R),
    rmse (RangeCount 2) (Some (RangeVars (mkExprVars 2 4))) = Ok r /\
    mae (RangeCount 2) (Some (RangeVars (mkExprVars 2 4))) = Ok m /\
    eval (fun _ => 0%R) (flatten r) [] = Some [v] /\
    eval (fun _ => 0%R) (flatten m) [] = Some [v] /\
    (forall ab,
       In ab [("x", "z"); ("y", "a")] -> (Rabs (0 - 0) <= v)%R) /\
    (exists ab, In ab [("x", "z"); ("y", "a")] /\ v = Rabs (0 - 0)).
Proof.
  assert (Hne : List.combine (vars_iter (ExprVars (RangeCount 2)))
                  (vars_iter (ExprVars (RangeVars (mkExprVars 2 4)))) <> [])
    by discriminate.
  split; [reflexivity|]. split; [exact Hne|].
  exact (difference_is_maximum (RangeCount 2) (RangeVars (mkExprVars 2 4))
           (fun _ => 0%R) eq_refl Hne).
Defined.

(** ** Tokens: what each one reads *)

(** X13: [is_chroma] holds of exactly the six tokens whose name begins with
    Chroma, whichever case the name continues in (Chromamax as well as
    ChromaMin). *)
Theorem is_chroma_tokens (t : ExprToken) :
  is_chroma t = true <->
  In t [ChromaMin; Chromamax; ChromaRangeMin; ChromaRangeMax;
        ChromaRangeInMin; ChromaRangeInMax].
Proof.
  split.
  - destruct t; intros H; try discriminate H; cbn; tauto.
  - intros H. cbn in H.
    repeat (destruct H as [<-|H]; [reflexivity|]). destruct H.
Qed.

(** X14: a token that [is_chroma] reads nothing but the chroma rows of the
    lowest and peak levels: its value ignores the [chroma] argument and is
    the same under any two sets of levels that agree on their chroma rows. *)
Theorem chroma_tokens_read_chroma_levels
    (lowest1 peak1 : VideoFormat -> bool -> ColorRange -> number)
    (neutral1 : VideoFormat -> bool -> number)
    (lowest2 peak2 : VideoFormat -> bool -> ColorRange -> number)
    (neutral2 : VideoFormat -> bool -> number)
    (t : ExprToken) (clip : VideoNode) (chroma chroma' : bool)
    (range_in : ColorRange) :
  is_chroma t = true ->
  (forall fmt r, lowest1 fmt true r = lowest2 fmt true r) ->
  (forall fmt r, peak1 fmt true r = peak2 fmt true r) ->
  get_value lowest1 peak1 neutral1 t clip chroma range_in =
  get_value lowest2 peak2 neutral2 t clip chroma' range_in.
Proof.
  intros Hc Hl Hp.
  destruct t; try discriminate Hc; cbn [get_value];
    unfold get_lowest_value, get_peak_value;
    destruct (format clip); try reflexivity; now rewrite ?Hl, ?Hp.
Qed.

Lemma chroma_tokens_read_chroma_levels_witness :
  is_chroma ChromaRangeMax = true /\
  (forall fmt r, std_lowest fmt true r = std_lowest fmt true r) /\
  (forall fmt r, std_peak fmt true r = std_peak fmt true r) /\
  get_value std_lowest std_peak std_neutral ChromaRangeMax yuv8 false FULL =
  get_value std_lowest std_peak std_neutral ChromaRangeMax yuv8 true FULL.
Proof.
  split; [reflexivity|].
  split; [intros; reflexivity|]. split; [intros; reflexivity|].
  exact (chroma_tokens_read_chroma_levels
           std_lowest std_peak std_neutral std_lowest std_peak std_neutral
           ChromaRangeMax yuv8 false true FULL eq_refl
           (fun _ _ => eq_refl) (fun _ _ => eq_refl)).
Defined.

(** X15: which arguments a token reads. The [range_in] argument changes the
    value of no token but the six input-range ones, and the [chroma]
    argument changes the value of no token but [RangeHalf], [RangeMin],
    [RangeMax], [RangeInMin] and [RangeInMax]. *)
Theorem token_arguments_read
    (lowest_level peak_level : VideoFormat -> bool -> ColorRange -> number)
    (neutral_level : VideoFormat -> bool -> number)
    (clip : VideoNode) (chroma chroma' : bool)
    (range_in range_in' : ColorRange) :
  let value t c r :=
    get_value lowest_level peak_level neutral_level t clip c r in
  Forall (fun t => value t chroma range_in = value t chroma range_in')
    [LumaMin; ChromaMin; Lumamax; Chromamax; RangeHalf; RangeSize;
     RangeMin; LumaRangeMin; ChromaRangeMin;
     RangeMax; LumaRangeMax; ChromaRangeMax] /\
  Forall (fun t => value t chroma range_in = value t chroma' range_in)
    [LumaMin; ChromaMin; Lumamax; Chromamax; RangeSize;
     LumaRangeMin; ChromaRangeMin; LumaRangeMax; ChromaRangeMax;
     LumaRangeInMin; ChromaRangeInMin; LumaRangeInMax; ChromaRangeInMax].
Proof.
  cbv zeta. split; repeat constructor.
Qed.



(** ** [expr]: errors, forwarding and the text *)

(** X17: [expr] raises [IndexError] exactly on an empty clip list and
    [AssertionError] exactly when the first clip has no format; either error
    is raised before the fragments, the planes and the options are looked
    at, so it is the same whatever they are. *)
Theorem expr_errors (repr_float : float -> string) (aka : bool)
    (clips : list VideoNode) (e : list frag) (planes : planes_arg)
    (kw : ExprKwargs) :
  let r := expr repr_float aka clips e planes kw in
  (r = Err IndexError <-> clips = []) /\
  (r = Err AssertionError <->
   exists c rest, clips = c :: rest /\ format c = None) /\
  (forall err,
     r = Err err ->
     forall aka' e' planes' kw',
       expr repr_float aka' clips e' planes' kw' = Err err).
Proof.
  cbv zeta. unfold expr. destruct clips as [|c rest].
  - repeat split; try discriminate; try tauto.
    intros [c [rest [H _]]]. discriminate.
  - destruct (format c) as [fmt|] eqn:Hf.
    + repeat split; try discriminate.
      intros [c' [rest' [H H']]]. injection H as <- <-. congruence.
    + repeat split; try discriminate; try tauto.
      intros _. now exists c, rest.
Qed.

(** X18: [expr] hands the clip list and the output format to the engine
    unchanged; the extended engine also gets the optimization and boundary
    flags, the baseline engine gets neither, so without the extended engine
    the call is the same whatever the two flags are. *)
Theorem expr_forwards_options (repr_float : float -> string) (aka : bool)
    (clips : list VideoNode) (e : list frag) (planes : planes_arg)
    (kw : ExprKwargs) (call : EngineCall) :
  expr repr_float aka clips e planes kw = Ok call ->
  call =
  (if aka
   then AkarinExpr clips (call_expr call)
          (kw_format kw) (kw_opt kw) (kw_boundary kw)
   else StdExpr clips (call_expr call) (kw_format kw)) /\
  (aka = false ->
   forall opt boundary,
     expr repr_float aka clips e planes (mkKwargs (kw_format kw) opt boundary)
     = Ok call).
Proof.
  unfold expr. destruct clips as [|c rest]; [discriminate|].
  destruct (format c); [|discriminate].
  cbv zeta. intros H. injection H as <-. unfold expr_func.
  destruct aka; split; try reflexivity; discriminate.
Qed.

Lemma expr_forwards_options_witness :
  expr repr_unused false [gray8] [FStr "x"] PlanesNone
    (mkKwargs (Some 5%Z) true true) =
  Ok (StdExpr [gray8] ["x"] (Some 5%Z)) /\
  StdExpr [gray8] ["x"] (Some 5%Z) = StdExpr [gray8] ["x"] (Some 5%Z) /\
  (false = false ->
   forall opt boundary,
     expr repr_unused false [gray8] [FStr "x"] PlanesNone
       (mkKwargs (Some 5%Z) opt boundary) =
     Ok (StdExpr [gray8] ["x"] (Some 5%Z))).
Proof.
  split; [reflexivity|].
  exact (expr_forwards_options repr_unused false [gray8] [FStr "x"]
           PlanesNone (mkKwargs (Some 5%Z) true true) _ eq_refl).
Defined.

Lemma words_app (repr_float : float -> string) (e1 e2 : list frag) :
  words repr_float (e1 ++ e2) = words repr_float e1 ++ words repr_float e2.
Proof.
  unfold words, flatten. now rewrite flat_map_app, filter_app, map_app.
Qed.

Lemma expr_string_words (repr_float : float -> string) (e : list frag) :
  expr_string repr_float e = String.concat " " (words repr_float e).
Proof. reflexivity. Qed.

Lemma string_app_assoc (a b c : string) :
  ((a ++ b) ++ c = a ++ (b ++ c))%string.
Proof. induction a; cbn; [reflexivity|now rewrite IHa]. Qed.

Lemma concat_cons (sep a : string) (l : list string) :
  l <> [] ->
  String.concat sep (a :: l) = (a ++ sep ++ String.concat sep l)%string.
Proof. intros H. destruct l; [contradiction|reflexivity]. Qed.

Lemma concat_app (sep : string) (l1 l2 : list string) :
  l1 <> [] -> l2 <> [] ->
  String.concat sep (l1 ++ l2) =
  (String.concat sep l1 ++ sep ++ String.concat sep l2)%string.
Proof.
  intros H1 H2. induction l1 as [|a l1 IH]; [contradiction|].
  destruct l1 as [|b l1].
  - cbn [app]. now rewrite concat_cons.
  - rewrite <- app_comm_cons, concat_cons by discriminate.
    rewrite IH by discriminate.
    rewrite (concat_cons sep a (b :: l1)) by discriminate.
    now rewrite !string_app_assoc.
Qed.

Lemma expr_string_app (repr_float : float -> string) (e1 e2 : list frag) :
  words repr_float e1 <> [] -> words repr_float e2 <> [] ->
  expr_string repr_float (e1 ++ e2) =
  (expr_string repr_float e1 ++ " " ++ expr_string repr_float e2)%string.
Proof.
  intros H1 H2. rewrite !expr_string_words, words_app. now apply concat_app.
Qed.

(** X19: the text of two fragment lists put end to end is the two texts
    joined by one space, and just the other text when one side has no word
    (nothing but [None], empty strings and empty sequences). *)
Theorem expr_string_compose (repr_float : float -> string)
    (e1 e2 : list frag) :
  (words repr_float e1 = [] ->
   expr_string repr_float (e1 ++ e2) = expr_string repr_float e2) /\
  (words repr_float e2 = [] ->
   expr_string repr_float (e1 ++ e2) = expr_string repr_float e1) /\
  (words repr_float e1 <> [] -> words repr_float e2 <> [] ->
   expr_string repr_float (e1 ++ e2) =
   (expr_string repr_float e1 ++ " " ++ expr_string repr_float e2)%string).
Proof.
  repeat split.
  - intros H. now rewrite !expr_string_words, words_app, H.
  - intros H. now rewrite !expr_string_words, words_app, H, app_nil_r.
  - apply expr_string_app.
Qed.

(** X20: the text does not see the nesting: a sequence can be replaced by
    its elements in place, and a [None], an empty string or an empty sequence
    can be dropped anywhere, without changing the text. *)
Theorem expr_string_ignores_nesting (repr_float : float -> string)
    (e e1 e2 : list frag) :
  expr_string repr_float [Seq e] = expr_string repr_float e /\
  expr_string repr_float (e1 ++ [Seq e] ++ e2) =
  expr_string repr_float (e1 ++ e ++ e2) /\
  expr_string repr_float (e1 ++ [FNone] ++ e2) =
  expr_string repr_float (e1 ++ e2) /\
  expr_string repr_float (e1 ++ [FStr ""] ++ e2) =
  expr_string repr_float (e1 ++ e2) /\
  expr_string repr_float (e1 ++ [Seq []] ++ e2) =
  expr_string repr_float (e1 ++ e2).
Proof.
  rewrite !expr_string_words.
  assert (Hs : words repr_float [Seq e] = words repr_float e).
  { unfold words, flatten. cbn. now rewrite app_nil_r. }
  repeat split; rewrite ?words_app, ?Hs; reflexivity.
Qed.

(** X21: entries are dropped before they are stripped, so a string of
    nothing but whitespace is kept as an empty word: after other words it
    leaves a trailing space in the text, before them a leading one. *)
Theorem whitespace_entry_is_kept (repr_float : float -> string) (s : string)
    (e : list frag) :
  s <> "" -> strip s = "" -> words repr_float e <> [] ->
  expr_string repr_float (e ++ [FStr s]) =
  (expr_string repr_float e ++ " ")%string /\
  expr_string repr_float ([FStr s] ++ e) =
  (" " ++ expr_string repr_float e)%string.
Proof.
  intros Hs Hstrip He.
  assert (Hw : words repr_float [FStr s] = [""]).
  { unfold words, flatten. cbn [flat_map flatten_item app].
    destruct s; [contradiction|]. cbn [filter kept map str].
    now rewrite Hstrip. }
  pose proof (expr_string_app repr_float e [FStr s]) as H1.
  pose proof (expr_string_app repr_float [FStr s] e) as H2.
  unfold frag in *.
  rewrite H1, H2 by (rewrite ?Hw; auto; discriminate).
  rewrite !expr_string_words, Hw. split; reflexivity.
Qed.

Lemma whitespace_entry_is_kept_witness :
  " " <> "" /\ strip " " = "" /\ words repr_unused [FStr "x"] <> [] /\
  expr_string repr_unused ([FStr "x"] ++ [FStr " "]) = "x " /\
  expr_string repr_unused ([FStr " "] ++ [FStr "x"]) = " x".
Proof.
  assert (H1 : " " <> "") by discriminate.
  assert (H3 : words repr_unused [FStr "x"] <> []) by discriminate.
  split; [exact H1|]. split; [reflexivity|]. split; [exact H3|].
  exact (whitespace_entry_is_kept repr_unused " " [FStr "x"] H1 eq_refl H3).
Defined.

(** ** [combine]: normalizing prefixes and suffixes, and the text *)

Lemma list_mul_length {A : Type} (l : list A) (k : nat) :
  List.length (list_mul l k) = (List.length l * k)%nat.
Proof.
  unfold list_mul. induction k as [|k IH]; cbn; [lia|].
  rewrite length_app, IH. lia.
Qed.

(** A repeated list is read cyclically. *)
Lemma list_mul_nth {A : Type} (l : list A) (k i : nat) :
  (i < List.length l * k)%nat ->
  nth_error (list_mul l k) i = nth_error l (i mod List.length l).
Proof.
  unfold list_mul. revert i. induction k as [|k IH]; intros i Hi; [lia|].
  cbn [repeat List.concat].
  assert (Hl : (0 < List.length l)%nat) by (destruct l; cbn in *; lia).
  destruct (Nat.lt_ge_cases i (List.length l)) as [Hlt|Hge].
  - rewrite nth_error_app1 by exact Hlt. now rewrite Nat.mod_small.
  - rewrite nth_error_app2 by exact Hge. rewrite IH by nia.
    f_equal.
    replace i with ((i - List.length l) + 1 * List.length l)%nat at 2 by lia.
    now rewrite Nat.Div0.mod_add.
Qed.

Lemma ceil_div_ge (n d : nat) : (0 < d)%nat -> (n <= d * ceil_div n d)%nat.
Proof.
  intros Hd. unfold ceil_div.
  pose proof (Nat.div_mod_eq (n + d - 1) d).
  pose proof (Nat.mod_upper_bound (n + d - 1) d ltac:(lia)). nia.
Qed.

Lemma ceil_div_exact (n d : nat) :
  (0 < d)%nat -> (n mod d = 0)%nat -> (d * ceil_div n d = n)%nat.
Proof.
  intros Hd Hm. unfold ceil_div.
  pose proof (Nat.div_mod_eq n d) as E. rewrite Hm in E.
  replace (n + d - 1)%nat with ((d - 1) + (n / d) * d)%nat by nia.
  rewrite Nat.div_add by lia. rewrite Nat.div_small by lia. nia.
Qed.

Lemma ceil_div_over (n d : nat) :
  (0 < d)%nat -> (n mod d <> 0)%nat -> (n < d * ceil_div n d)%nat.
Proof.
  intros Hd Hm. unfold ceil_div.
  pose proof (Nat.div_mod_eq n d) as E.
  pose proof (Nat.mod_upper_bound n d ltac:(lia)) as B.
  replace (n + d - 1)%nat with ((n mod d - 1) + (n / d + 1) * d)%nat by nia.
  rewrite Nat.div_add by lia. rewrite Nat.div_small by lia. nia.
Qed.

Lemma ceil_div_1 (n : nat) : ceil_div n 1 = n.
Proof. unfold ceil_div. rewrite Nat.div_1_r. lia. Qed.

(** X22: a non-empty prefix or suffix list is cycled: the normalized list
    covers all the clips, stops within one period past them, and its entry
    [i] is the entry [i mod len] of the list given. *)
Theorem combine_norm_cycles (l : list frag) (n_clips : nat) :
  l <> [] ->
  exists out : list frag,
    _combine_norm__ix (FfixList l) n_clips = Ok out /\
    (n_clips <= List.length out)%nat /\
    (List.length out < n_clips + List.length l \/ n_clips = 0%nat) /\
    forall i : nat,
      (i < List.length out)%nat ->
      nth_error out i = nth_error l (i mod List.length l).
Proof.
  intros Hl.
  assert (Hd : (0 < List.length l)%nat)
    by (destruct l; [contradiction|cbn; lia]).
  unfold _combine_norm__ix. cbv zeta. unfold frag in *.
  destruct (Nat.eqb_spec (List.length l) 0) as [E|_]; [lia|].
  eexists. split; [reflexivity|].
  rewrite list_mul_length.
  pose proof (ceil_div_ge n_clips (List.length l) Hd) as Hge.
  split; [nia|]. split.
  - destruct n_clips as [|n]; [now right|left].
    assert (Hc : (1 <= ceil_div (S n) (List.length l))%nat).
    { destruct (ceil_div (S n) (List.length l)); [lia|lia]. }
    rewrite Nat.max_r by exact Hc.
    unfold ceil_div.
    pose proof (Nat.div_mod_eq (S n + List.length l - 1) (List.length l)).
    pose proof (Nat.mod_upper_bound (S n + List.length l - 1)
                  (List.length l) ltac:(lia)).
    nia.
  - intros i Hi. now apply list_mul_nth.
Qed.

Lemma combine_norm_cycles_witness :
  [FStr "s0"; FStr "s1"] <> [] /\
  exists out : list frag,
    _combine_norm__ix (FfixList [FStr "s0"; FStr "s1"]) 5 = Ok out /\
    (5 <= List.length out)%nat /\
    (List.length out < 5 + 2 \/ 5%nat = 0%nat) /\
    forall i : nat,
      (i < List.length out)%nat ->
      nth_error out i = nth_error [FStr "s0"; FStr "s1"] (i mod 2).
Proof.
  assert (H : [FStr "s0"; FStr "s1"] <> []) by discriminate.
  split; [exact H|].
  exact (combine_norm_cycles [FStr "s0"; FStr "s1"] 5 H).
Defined.

Lemma norm_singleton (a : frag) (n : nat) :
  (if Nat.eqb (List.length [a]) 0 then Err ZeroDivisionError
   else Ok (list_mul [a] (Nat.max 1 (ceil_div n (List.length [a]))))) =
  Ok (repeat a (Nat.max 1 n)).
Proof.
  change (List.length [a]) with 1%nat. rewrite ceil_div_1.
  change (Nat.eqb 1 0) with false. cbv iota. f_equal.
  unfold list_mul. induction (Nat.max 1 n) as [|k IH]; [reflexivity|].
  cbn [repeat List.concat app]. now rewrite IH.
Qed.

(** X23: the other shapes of a prefix or suffix. Left out, it becomes one
    empty string per clip; a string or a tuple is repeated once per clip, and
    once even when there is no clip; an empty sequence raises
    [ZeroDivisionError] and a number [TypeError]. *)
Theorem combine_norm_scalars_and_errors (n_clips : nat) (s : string)
    (t : list frag) (x : number) :
  _combine_norm__ix FfixNone n_clips = Ok (repeat (FStr "") n_clips) /\
  _combine_norm__ix (FfixStr s) n_clips =
  Ok (repeat (FStr s) (Nat.max 1 n_clips)) /\
  _combine_norm__ix (FfixTuple t) n_clips =
  Ok (repeat (Seq t) (Nat.max 1 n_clips)) /\
  _combine_norm__ix (FfixList []) n_clips = Err ZeroDivisionError /\
  _combine_norm__ix (FfixNum x) n_clips = Err TypeError.
Proof.
  repeat split; unfold _combine_norm__ix; cbv zeta;
    try apply norm_singleton; reflexivity.
Qed.

Lemma zip3_length {A B C : Type} (la : list A) (lb : list B) (lc : list C) :
  List.length (zip3 la lb lc) =
  Nat.min (List.length la) (Nat.min (List.length lb) (List.length lc)).
Proof.
  revert lb lc. induction la as [|a la IH]; intros [|b lb] [|c lc];
    cbn; try reflexivity; try lia.
  now rewrite IH.
Qed.

(** For at least one clip a normalized prefix or suffix has exactly one
    entry per clip when it covers them exactly, and more otherwise. *)
Lemma norm_length (ffix : ffix_arg) (n : nat) (out : list frag) :
  (1 <= n)%nat ->
  _combine_norm__ix ffix n = Ok out ->
  (covers_exactly ffix n = true -> List.length out = n) /\
  (covers_exactly ffix n = false -> (n < List.length out)%nat).
Proof.
  intros Hn. unfold _combine_norm__ix. cbv zeta.
  destruct ffix as [|s|t|l|x]; unfold covers_exactly.
  - intros H. injection H as <-. rewrite repeat_length.
    split; [reflexivity|discriminate].
  - rewrite norm_singleton. intros H. injection H as <-.
    rewrite repeat_length. destruct n; [lia|].
    split; [reflexivity|discriminate].
  - rewrite norm_singleton. intros H. injection H as <-.
    rewrite repeat_length. destruct n; [lia|].
    split; [reflexivity|discriminate].
  - unfold frag in *.
    destruct (Nat.eqb_spec (List.length l) 0) as [E|Hd]; [discriminate|].
    assert (Hc : (1 <= ceil_div n (List.length l))%nat).
    { pose proof (ceil_div_ge n (List.length l) ltac:(lia)).
      destruct (ceil_div n (List.length l)); lia. }
    rewrite Nat.max_r by exact Hc.
    intros H. injection H as <-. rewrite list_mul_length.
    split; intros Hm.
    + apply Nat.eqb_eq in Hm. apply ceil_div_exact; [lia|exact Hm].
    + apply Nat.eqb_neq in Hm. apply ceil_div_over; [lia|exact Hm].
  - discriminate.
Qed.

(** X24: how many per-clip entries [combine] builds, for 1 to 25 clips. It
    builds one entry per clip as soon as the prefix or the suffix covers the
    clips exactly (it is left out, a string, a tuple, or a list whose length
    divides the clip count); when both are lists whose lengths do not divide
    the clip count it builds one entry more than there are clips. *)
Theorem combine_args_count (n_clips : nat) (prefix suffix : ffix_arg)
    (entries : list (frag * string * frag)) :
  (1 <= n_clips)%nat -> (n_clips < List.length EXPR_VARS)%nat ->
  combine_args n_clips prefix suffix = Ok entries ->
  List.length entries =
  if covers_exactly prefix n_clips || covers_exactly suffix n_clips
  then n_clips else (n_clips + 1)%nat.
Proof.
  intros Hn Hv. unfold combine_args.
  destruct (_combine_norm__ix prefix n_clips) as [ps|] eqn:Hp;
    [|discriminate].
  destruct (_combine_norm__ix suffix n_clips) as [ss|] eqn:Hs;
    [|discriminate].
  cbn [bind to_arr]. intros H. injection H as <-.
  rewrite zip3_length, !length_firstn.
  destruct (norm_length prefix n_clips ps Hn Hp) as [Hp1 Hp2].
  destruct (norm_length suffix n_clips ss Hn Hs) as [Hs1 Hs2].
  unfold frag in *.
  destruct (covers_exactly prefix n_clips), (covers_exactly suffix n_clips);
    cbn [orb];
    try specialize (Hp1 eq_refl); try specialize (Hp2 eq_refl);
    try specialize (Hs1 eq_refl); try specialize (Hs2 eq_refl); lia.
Qed.

Lemma combine_args_count_witness :
  (1 <= 4)%nat /\ (4 < List.length EXPR_VARS)%nat /\
  combine_args 4 (FfixList [FStr "p0"; FStr "p1"; FStr "p2"])
    (FfixList [FStr "s0"; FStr "s1"]) =
  Ok [(FStr "p0", "x", FStr "s0"); (FStr "p1", "y", FStr "s1");
      (FStr "p2", "z", FStr "s0"); (FStr "p0", "a", FStr "s1")] /\
  List.length
    [(FStr "p0", "x", FStr "s0"); (FStr "p1", "y", FStr "s1");
     (FStr "p2", "z", FStr "s0"); (FStr "p0", "a", FStr "s1")] = 4%nat.
Proof.
  assert (H1 : (1 <= 4)%nat) by lia.
  assert (H2 : (4 < List.length EXPR_VARS)%nat) by (cbn; lia).
  split; [exact H1|]. split; [exact H2|]. split; [reflexivity|].
  exact (combine_args_count 4 (FfixList [FStr "p0"; FStr "p1"; FStr "p2"])
           (FfixList [FStr "s0"; FStr "s1"]) _ H1 H2 eq_refl).
Defined.

Lemma zip3_repeat {A B C : Type} (a : A) (c : C) (n : nat) (l : list B) :
  zip3 (repeat a n) l (repeat c n) = map (fun v => (a, v, c)) (firstn n l).
Proof.
  revert l. induction n as [|n IH]; intros [|b l]; cbn; try reflexivity.
  now rewrite IH.
Qed.

Lemma firstn_repeat_more {A : Type} (a : A) (n : nat) :
  firstn (n + 1) (repeat a n) = repeat a n.
Proof. apply firstn_all2. rewrite repeat_length. lia. Qed.

Lemma combine_args_plain (n : nat) :
  combine_args n FfixNone FfixNone =
  Ok (map (fun v => (FStr "", v, FStr "")) (firstn n EXPR_VARS)).
Proof.
  unfold combine_args. cbn [_combine_norm__ix bind to_arr].
  rewrite firstn_repeat_more, zip3_repeat, firstn_firstn.
  now rewrite Nat.min_l by lia.
Qed.

Lemma strip_op_value (o : ExprOp) : strip (op_value o) = op_value o.
Proof. destruct o; reflexivity. Qed.

Lemma catalog_names_clean :
  Forall (fun v => v <> "" /\ strip v = v) EXPR_VARS.
Proof. repeat constructor; discriminate. Qed.

Lemma Forall_prefix {A : Type} (P : A -> Prop) (n : nat) (l : list A) :
  Forall P l -> Forall P (firstn n l).
Proof.
  revert l. induction n as [|n IH]; intros l H; [constructor|].
  destruct H as [|a l Ha Hl]; [constructor|].
  cbn. constructor; [exact Ha|apply IH, Hl].
Qed.

(** The words of a combination without prefixes and suffixes: the names,
    then the operators. *)
Lemma words_plain (repr_float : float -> string) (vars : list string)
    (o : ExprOp) (k : nat) :
  Forall (fun v => v <> "" /\ strip v = v) vars ->
  words repr_float
    [FNone;
     Seq (map (fun e : frag * string * frag =>
                 let '(p, v, s) := e in Seq [p; FStr v; s])
            (map (fun v => (FStr "", v, FStr "")) vars));
     Seq (repeat (FOp o) k); FNone] =
  vars ++ repeat (op_value o) k.
Proof.
  intros Hv. unfold words, flatten.
  cbn [flat_map flatten_item app filter kept].
  rewrite !filter_app, !map_app. cbn [filter kept map]. rewrite app_nil_r.
  f_equal.
  - induction Hv as [|v vars [Hne Hs] _ IH]; [reflexivity|].
    cbn [map flat_map flatten_item app filter kept].
    destruct v as [|ch v]; [contradiction|].
    cbn [filter kept map str]. rewrite Hs. f_equal. exact IH.
  - induction k as [|k IH]; [reflexivity|].
    cbn [repeat flat_map flatten_item app filter kept map str].
    rewrite strip_op_value. f_equal. exact IH.
Qed.

(** X25: the text of a plain combination, for any number of clips and any
    operator: with no prefixes and suffixes, [n] clips give the first [n]
    names of the catalog (all of them when the clips outnumber the names)
    followed by the operator [n - 1] times, joined by single spaces; one clip
    gives the bare name [x]. *)
Theorem combine_text (repr_float : float -> string) (aka : bool)
    (c : VideoNode) (rest : list VideoNode) (fmt : VideoFormat)
    (operator : ExprOp) (planes : planes_arg) (kw : ExprKwargs) :
  format c = Some fmt ->
  let n := S (List.length rest) in
  let text :=
    String.concat " "
      (firstn n EXPR_VARS ++ repeat (op_value operator) (n - 1)) in
  exists call : EngineCall,
    combine repr_float aka (c :: rest) operator FfixNone FfixNone FNone FNone
      planes kw = Ok call /\
    call_expr call =
    map (fun i => if plane_selected planes i then text else "")
      (seq 0 (num_planes fmt)).
Proof.
  intros Hfmt n text. eexists. split.
  - unfold combine. rewrite combine_args_plain. cbn [bind].
    apply expr_ok, Hfmt.
  - rewrite call_expr_func. apply map_ext. intros i.
    destruct (plane_selected planes i); [|reflexivity].
    unfold expr_string. fold (words repr_float).
    change (List.length (c :: rest)) with n.
    unfold op_mul. replace (Z.to_nat (Z.of_nat n - 1)) with (n - 1)%nat by lia.
    unfold text. f_equal. apply words_plain.
    apply Forall_prefix, catalog_names_clean.
Qed.

Lemma combine_text_witness :
  format yuv8 = Some (mkVideoFormat INTEGER 8 3) /\
  exists call : EngineCall,
    combine repr_unused false [yuv8; yuv8; yuv8; yuv8] MAX
      FfixNone FfixNone FNone FNone (PlanesMany [0%Z; 2%Z]) no_kwargs =
    Ok call /\
    call_expr call = ["x y z a max max max"; ""; "x y z a max max max"].
Proof.
  split; [reflexivity|].
  exact (combine_text repr_unused false yuv8 [yuv8; yuv8; yuv8]
           (mkVideoFormat INTEGER 8 3) MAX (PlanesMany [0%Z; 2%Z]) no_kwargs
           eq_refl).
Defined.

